(** * interview_client: the streaming pipeline of [client.py]

    A shallow embedding of [client.py]: the capture session's chunk
    generator ([MicrophoneStream.generator]), the backend relay
    ([send_text_to_backend]), the transcript dispatcher
    ([listen_print_loop]) and the session driver ([main]), with the
    properties the specification states about them. *)

From Stdlib Require Import List ZArith Lia Bool Ascii String PrimFloat.
From Stdlib.Strings Require Import Byte.
Import ListNotations.

(** Python [bytes]. *)
Definition bytes := list byte.

(** [b"".join(data)]. *)
Definition bytes_join (data : list bytes) : bytes := List.concat data.

(** ** Module constants *)

Definition RATE : Z := 16000.
Definition CHUNK : Z := (RATE / 10)%Z.   (* [int(RATE / 10)]: 100ms *)
Definition STREAM_DURATION_LIMIT : float := 300%float.

(** ** The capture session *)

Module MicrophoneStream.

(** What travels through [self._buff]: an audio buffer put by
    [_fill_buffer], or the [None] that [__exit__] puts.  The queue has one
    producer (the audio callback, then [__exit__]) and one consumer (the
    generator).  The consumer cannot tell how the producer is scheduled
    except through its non-blocking [get]: the next item either is already
    there or [queue.Empty] is raised.  So a run of the producer, as the
    consumer sees it, is the sequence of items put, each with the answer to
    that question. *)
Record arrival := Arrival {
  ready : bool;              (* already queued when a [get(block=False)] looks for it *)
  payload : option bytes     (* [None] is the sentinel *)
}.

(** One resumption of the generator by its consumer ([next()]): control is
    at the top of the [while], where [self.closed] and [time.time()] are
    read. *)
Record pull := Pull {
  closed_now : bool;
  time_now : float
}.

(** How the inner [while True] is left. *)
Inductive drained :=
| DrainBreak (data : list bytes) (rest : list arrival)   (* [queue.Empty]: [break] *)
| DrainReturn (rest : list arrival).                     (* sentinel read: [return] *)

(** The inner loop, lines 66-73: [data] is the list built so far. *)
Fixpoint drain (data : list bytes) (q : list arrival) : drained :=
  match q with
  | [] => DrainBreak data []
  | a :: q' =>
      if ready a then
        match payload a with
        | None => DrainReturn q'
        | Some chunk => drain (data ++ [chunk]) q'
        end
      else DrainBreak data q
  end.

(** How a run of the generator ends. *)
Inductive ending :=
| Exhausted (rest : list arrival)   (* the generator returned: [StopIteration] *)
| Suspended (rest : list arrival)   (* parked at its [yield]: the consumer stopped pulling *)
| Blocked                           (* waiting in [self._buff.get()] on a queue nobody fills *)
| TypeError.                        (* [time.time() - None]: never entered *)

(** [time.time() - self.start_time > STREAM_DURATION_LIMIT], on binary64
    floats as in Python. *)
Definition over_limit (start_time now : float) : bool :=
  PrimFloat.ltb STREAM_DURATION_LIMIT (PrimFloat.sub now start_time).

(** [generator], lines 55-75.  The result is the list of values yielded,
    in order, and how the run ended. *)
Fixpoint generator (start_time : option float) (pulls : list pull)
    (q : list arrival) : list bytes * ending :=
  match pulls with
  | [] => ([], Suspended q)
  | p :: pulls' =>
      if closed_now p then ([], Exhausted q)
      else
        match start_time with
        | None => ([], TypeError)
        | Some t0 =>
            if over_limit t0 (time_now p) then ([], Exhausted q)
            else
              match q with
              | [] => ([], Blocked)
              | a :: q' =>
                  match payload a with
                  | None => ([], Exhausted q')
                  | Some chunk =>
                      match drain [chunk] q' with
                      | DrainReturn rest => ([], Exhausted rest)
                      | DrainBreak data rest =>
                          let (ys, e) := generator start_time pulls' rest in
                          (bytes_join data :: ys, e)
                      end
                  end
              end
        end
  end.

(** The audio buffers of a producer run, in the order they were put. *)
Definition buffers (q : list arrival) : list bytes :=
  flat_map (fun a => match payload a with Some c => [c] | None => [] end) q.

End MicrophoneStream.

(** ** Text

    A Python [str] is modelled by the [string] of its UTF-8 encoding: the
    encoding is one-to-one, takes concatenation to concatenation and the
    empty [str] to the empty [string], and a literal of this file reads
    as the text it stands for.  What depends on the characters of the
    text, its length and the search for the stop phrase, goes through the
    code points. *)

Module Text.

(** A byte of the form [10xxxxxx]. *)
Definition continuation (b : N) : bool := ((128 <=? b) && (b <? 192))%N.

(** The code points of a UTF-8 byte sequence.  A byte that is no part of
    a well-formed sequence, which the encoding of a [str] never has,
    stands for itself as [U+DC00 + b]. *)
Fixpoint codepoints_of (bs : list N) : list N :=
  match bs with
  | [] => []
  | b0 :: rest =>
      let stray := (56320 + b0)%N :: codepoints_of rest in
      if (b0 <? 128)%N then b0 :: codepoints_of rest
      else if ((194 <=? b0) && (b0 <? 224))%N then
        match rest with
        | b1 :: rest1 =>
            if continuation b1
            then ((b0 - 192) * 64 + (b1 - 128))%N :: codepoints_of rest1
            else stray
        | _ => stray
        end
      else if ((224 <=? b0) && (b0 <? 240))%N then
        match rest with
        | b1 :: b2 :: rest2 =>
            if continuation b1 && continuation b2
               && (negb (b0 =? 224) || (160 <=? b1))%N
               && (negb (b0 =? 237) || (b1 <? 160))%N
            then ((b0 - 224) * 4096 + (b1 - 128) * 64 + (b2 - 128))%N
                 :: codepoints_of rest2
            else stray
        | _ => stray
        end
      else if ((240 <=? b0) && (b0 <? 245))%N then
        match rest with
        | b1 :: b2 :: b3 :: rest3 =>
            if continuation b1 && continuation b2 && continuation b3
               && (negb (b0 =? 240) || (144 <=? b1))%N
               && (negb (b0 =? 244) || (b1 <? 144))%N
            then ((b0 - 240) * 262144 + (b1 - 128) * 4096
                  + (b2 - 128) * 64 + (b3 - 128))%N
                 :: codepoints_of rest3
            else stray
        | _ => stray
        end
      else stray
  end.

(** The code points of a text. *)
Definition codepoints (s : string) : list N :=
  codepoints_of (map N_of_ascii (list_ascii_of_string s)).

(** [len(s)]: the number of code points. *)
Definition len (s : string) : Z := Z.of_nat (List.length (codepoints s)).

(** [s * n] for a [str] [s] and an [int] [n]: empty when [n <= 0]. *)
Definition str_mul (s : string) (n : Z) : string :=
  if (n <=? 0)%Z then EmptyString
  else Nat.iter (Z.to_nat n) (String.append s) EmptyString.

(** What [re] reads in the Unicode database of the interpreter, for the
    code points from U+0180 on: whether a code point is alphanumeric, its
    lower-case mapping, and whether it is cased.  The database is no part
    of the program, and it grows from one version of Python to the next;
    below U+0180 it is written out here. *)
Record database := {
  alnum : N -> bool;
  lower : N -> N;
  cased : N -> bool
}.

Definition in_ranges (ranges : list (N * N)) (c : N) : bool :=
  existsb (fun r => (fst r <=? c) && (c <=? snd r))%N ranges.

(** The class [\w] below U+0180: alphanumeric, or the underscore. *)
Definition word_ranges : list (N * N) :=
  [(48, 57); (65, 90); (95, 95); (97, 122); (170, 170); (178, 179);
   (181, 181); (185, 186); (188, 190); (192, 214); (216, 246); (248, 383)]%N.

(** The cased code points below U+0180. *)
Definition cased_ranges : list (N * N) :=
  [(65, 90); (97, 122); (181, 181); (192, 214); (216, 246); (248, 311);
   (313, 383)]%N.

(** The lower-case mapping below U+0180. *)
Definition lower_latin (c : N) : N :=
  if in_ranges [(65, 90); (192, 214); (216, 222)]%N c then (c + 32)%N
  else if (c =? 304)%N then 105%N
  else if (c =? 376)%N then 255%N
  else if in_ranges [(256, 303); (306, 311); (330, 375)]%N c && N.even c
  then (c + 1)%N
  else if in_ranges [(313, 328); (377, 382)]%N c && N.odd c then (c + 1)%N
  else c.

(** The class [\w] of [re] on [str] patterns. *)
Definition is_word (db : database) (c : N) : bool :=
  if (c <? 384)%N then in_ranges word_ranges c else alnum db c.

(** [_sre.unicode_tolower]. *)
Definition tolower (db : database) (c : N) : N :=
  if (c <? 384)%N then lower_latin c else lower db c.

(** [_sre.unicode_iscased]. *)
Definition iscased (db : database) (c : N) : bool :=
  if (c <? 384)%N then in_ranges cased_ranges c else cased db c.

(** [re._casefix._EXTRA_CASES]: the lower-case code points that
    [re.IGNORECASE] takes for one another beside their own case forms. *)
Definition EXTRA_CASES : list (N * list N) :=
  [(105, [305]); (115, [383]); (181, [956]); (305, [105]); (383, [115]);
   (837, [953; 8126]); (912, [8147]); (944, [8163]); (946, [976]); (949,
   [1013]); (952, [977]); (953, [837; 8126]); (954, [1008]); (956, [181]);
   (960, [982]); (961, [1009]); (962, [963]); (963, [962]); (966, [981]);
   (976, [946]); (977, [952]); (981, [966]); (982, [960]); (1008, [954]);
   (1009, [961]); (1013, [949]); (1074, [7296]); (1076, [7297]); (1086,
   [7298]); (1089, [7299]); (1090, [7300; 7301]); (1098, [7302]); (1123,
   [7303]); (7296, [1074]); (7297, [1076]); (7298, [1086]); (7299, [1089]);
   (7300, [1090; 7301]); (7301, [1090; 7300]); (7302, [1098]); (7303,
   [1123]); (7304, [42571]); (7777, [7835]); (7835, [7777]); (8126, [837;
   953]); (8147, [912]); (8163, [944]); (42571, [7304]); (64261, [64262]);
   (64262, [64261])]%N.

Definition extra_cases (lo : N) : list N :=
  match find (fun e => (fst e =? lo)%N) EXTRA_CASES with
  | Some e => snd e
  | None => []
  end.

End Text.

(** ** The part of [re] the dispatcher uses *)

Module Re.

Inductive regex :=
| Eps                      (* the empty pattern *)
| Lit (c : N)              (* a literal character *)
| WordBoundary             (* [\b] *)
| Cat (r1 r2 : regex)      (* concatenation *)
| Alt (r1 r2 : regex).     (* [r1|r2], also under a group *)

(** A position in the subject: the character just before it, if any, and
    the characters from it on. *)
Definition cursor := (option N * list N)%type.

Section Matcher.

Variable db : Text.database.

Definition word_before (k : cursor) : bool :=
  match fst k with Some c => Text.is_word db c | None => false end.

Definition word_after (k : cursor) : bool :=
  match snd k with c :: _ => Text.is_word db c | [] => false end.

(** Whether the literal [c] of the pattern takes the character [a] of the
    subject.  Under [re.I] a cased literal is compiled to its lower-case
    form and the extra cases of that form, and takes the characters whose
    lower-case form is one of these; any other literal takes itself. *)
Definition lit_matches (ignorecase : bool) (c a : N) : bool :=
  if ignorecase && Text.iscased db c then
    let lo := Text.tolower db c in
    existsb (N.eqb (Text.tolower db a)) (lo :: Text.extra_cases lo)
  else N.eqb a c.

(** Every position a match of [r] that starts at [k] can end at, in the
    order a backtracking matcher tries them.  [ignorecase] is [re.I]. *)
Fixpoint match_here (ignorecase : bool) (r : regex) (k : cursor) : list cursor :=
  match r with
  | Eps => [k]
  | Lit c =>
      match snd k with
      | a :: rest => if lit_matches ignorecase c a then [(Some a, rest)] else []
      | [] => []
      end
  | WordBoundary => if xorb (word_before k) (word_after k) then [k] else []
  | Cat r1 r2 => flat_map (match_here ignorecase r2) (match_here ignorecase r1 k)
  | Alt r1 r2 => match_here ignorecase r1 k ++ match_here ignorecase r2 k
  end.

(** The scan of [re.search]: the leftmost start with a match. *)
Fixpoint search_from (ignorecase : bool) (r : regex) (prev : option N)
    (rest : list N) : bool :=
  match match_here ignorecase r (prev, rest) with
  | _ :: _ => true
  | [] =>
      match rest with
      | [] => false
      | a :: rest' => search_from ignorecase r (Some a) rest'
      end
  end.

(** The truth value of [re.search(r, s, flags)]. *)
Definition search (ignorecase : bool) (r : regex) (s : string) : bool :=
  search_from ignorecase r None (Text.codepoints s).

End Matcher.

(** A literal word. *)
Fixpoint word (cs : list N) : regex :=
  match cs with
  | [] => Eps
  | c :: cs' => Cat (Lit c) (word cs')
  end.

End Re.

Arguments Re.lit_matches : simpl never.

(** [r"\b(exit|quit)\b"]. *)
Definition exit_pattern : Re.regex :=
  Re.Cat Re.WordBoundary
    (Re.Cat (Re.Alt (Re.word (Text.codepoints "exit"))
                    (Re.word (Text.codepoints "quit")))
            Re.WordBoundary).

(** [re.search(r"\b(exit|quit)\b", transcript, re.I)], as a truth value. *)
Definition exit_phrase (db : Text.database) (transcript : string) : bool :=
  Re.search db true exit_pattern transcript.

(** ** Recognition responses *)

Record Alternative := { transcript : string }.
Record Result := { alternatives : list Alternative; is_final : bool }.
Record Response := { results : list Result }.

(** ** What the process does to the outside *)

(** The subclasses of [requests.RequestException] the relay can meet. *)
Inductive request_exception :=
| ConnectionError (msg : string)        (* [requests.post] could not reach the backend *)
| HTTPError (status : Z)                (* [raise_for_status] on a 4xx or 5xx answer *)
| ChunkedEncodingError (msg : string).  (* the body stream broke *)

Inductive exn :=
| RequestException (e : request_exception)
| UnicodeDecodeError
| UnboundLocalError
| OSError (msg : string).

Inductive console_event :=
| Write (s : string)                    (* [sys.stdout.write(s)] *)
| Flush                                 (* [sys.stdout.flush()] *)
| Print (args : list string)            (* [print] of these arguments *)
| PrintRelayError (e : request_exception).
    (* [print(f"Error sending request to backend: {e}")] *)

Record http_request := {
  url : string;
  headers : list (string * string);
  json : list (string * string);
  stream : bool
}.

(** What [response.iter_content(chunk_size=1024)] gives next. *)
Inductive body_item :=
| BodyChunk (raw : bytes)
| BodyFailure (e : request_exception).

(** What the backend does with one POST. *)
Inductive http_answer :=
| NoAnswer (e : request_exception)              (* [requests.post] raises *)
| Answer (status : Z) (body : list body_item).

(** The effects of a run so far.  [relayed] is a ghost field: the argument
    of every call of [send_text_to_backend]. *)
Record world := {
  console : list console_event;
  posts : list http_request;
  relayed : list string;
  mic_opened : nat;
  mic_closed : nat
}.

Definition world0 : world :=
  {| console := []; posts := []; relayed := []; mic_opened := 0; mic_closed := 0 |}.

Definition emit (ev : console_event) (w : world) : world :=
  {| console := console w ++ [ev]; posts := posts w; relayed := relayed w;
     mic_opened := mic_opened w; mic_closed := mic_closed w |}.

Definition record_post (req : http_request) (w : world) : world :=
  {| console := console w; posts := posts w ++ [req]; relayed := relayed w;
     mic_opened := mic_opened w; mic_closed := mic_closed w |}.

Definition record_relay (t : string) (w : world) : world :=
  {| console := console w; posts := posts w; relayed := relayed w ++ [t];
     mic_opened := mic_opened w; mic_closed := mic_closed w |}.

(** [MicrophoneStream.__enter__] and [__exit__], as far as the driver is
    concerned: the device is opened and released. *)
Definition enter_stream (w : world) : world :=
  {| console := console w; posts := posts w; relayed := relayed w;
     mic_opened := S (mic_opened w); mic_closed := mic_closed w |}.

Definition exit_stream (w : world) : world :=
  {| console := console w; posts := posts w; relayed := relayed w;
     mic_opened := mic_opened w; mic_closed := S (mic_closed w) |}.

(** The request of line 88. *)
Definition backend_request (t : string) : http_request :=
  {| url := "http://localhost:8000/api/v1/interviews/1/start";
     headers := [("Content-Type", "application/json")];
     json := [("Question", t)];
     stream := true |}%string.

(** [response.raise_for_status()] raises on these. *)
Definition is_error_status (status : Z) : bool :=
  ((400 <=? status) && (status <? 600))%Z.

(** How the [for] statement of [listen_print_loop] is left. *)
Inductive loop_exit :=
| Exhausted (num_chars_printed : Z) (last : option string)  (* no response left *)
| Broke (last : string)                                     (* [break] *)
| Aborted (e : exn).                                        (* an exception went through *)

Inductive outcome :=
| Returned (v : string)
| Raised (e : exn).

(** One scripted session of the driver: whether the microphone opens, and
    the responses the recognizer streams back.  The recognizer is outside
    the program, so what it answers to the audio it is sent is part of
    the script. *)
Record session := {
  device_error : option string;
  responses : list Response
}.

Section Client.

(** The Unicode database of the interpreter, from U+0180 on. *)
Variable unicode : Text.database.

(** [bytes.decode('utf-8')]: [None] when it raises [UnicodeDecodeError]. *)
Variable decode_utf8 : bytes -> option string.

(** The backend: its answer to the POST number [n] of the process. *)
Variable backend : nat -> http_answer.

(** The [for chunk in response.iter_content(...)] loop, lines 93-100. *)
Fixpoint stream_body (body : list body_item) (current_text : string)
    (w : world) : world * option exn :=
  match body with
  | [] => (w, None)
  | BodyFailure e :: _ => (w, Some (RequestException e))
  | BodyChunk raw :: body' =>
      match raw with
      | [] => stream_body body' current_text w
      | _ :: _ =>
          match decode_utf8 raw with
          | None => (w, Some UnicodeDecodeError)
          | Some decoded_chunk =>
              let current_text := (current_text ++ decoded_chunk)%string in
              stream_body body' current_text
                (emit (Write (String "013" current_text)) (emit Flush w))
          end
      end
  end.

(** The body of the [try], lines 84-100. *)
Definition relay_try (transcript : string) (w : world) : world * option exn :=
  if String.eqb transcript "" then (w, None)
  else
    let w := emit (Print ["Sending text to backend: "; transcript]%string) w in
    let answer := backend (List.length (posts w)) in
    let w := record_post (backend_request transcript) w in
    match answer with
    | NoAnswer e => (w, Some (RequestException e))
    | Answer status body =>
        if is_error_status status
        then (w, Some (RequestException (HTTPError status)))
        else stream_body body "" w
    end.

(** [send_text_to_backend], lines 77-104: the [try] with its handler. *)
Definition send_text_to_backend (transcript : string) (w : world)
    : world * option exn :=
  match relay_try transcript (record_relay transcript w) with
  | (w', Some (RequestException e)) => (emit (PrintRelayError e) w', None)
  | r => r
  end.

(** The [for] statement of [listen_print_loop], lines 110-137, over the
    responses the recognizer delivers.  [last] is the local [transcript]:
    [None] while it is unbound.  An error that the recognizer raises
    instead of a next response is outside this model. *)
Fixpoint response_loop (rs : list Response) (num_chars_printed : Z)
    (last : option string) (w : world) : world * loop_exit :=
  match rs with
  | [] => (w, Exhausted num_chars_printed last)
  | response :: rs' =>
      match results response with
      | [] => response_loop rs' num_chars_printed last w
      | result :: _ =>
          match alternatives result with
          | [] => response_loop rs' num_chars_printed last w
          | alternative :: _ =>
              let t := transcript alternative in
              let overwrite_chars :=
                Text.str_mul " " (num_chars_printed - Text.len t) in
              if negb (is_final result) then
                let w := emit (Write (t ++ overwrite_chars ++ String "013" "")) w in
                let w := emit Flush w in
                response_loop rs' (Text.len t) (Some t) w
              else
                let w := emit (Write (t ++ overwrite_chars ++ String "010" "")) w in
                let w := emit Flush w in
                match send_text_to_backend t w with
                | (w, Some e) => (w, Aborted e)
                | (w, None) =>
                    if exit_phrase unicode t
                    then (emit (Print ["Exiting.."]%string) w, Broke t)
                    else response_loop rs' 0 (Some t) w
                end
          end
      end
  end.

(** [listen_print_loop], lines 107-138. *)
Definition listen_print_loop (rs : list Response) (w : world) : world * outcome :=
  match response_loop rs 0 None w with
  | (w', Exhausted _ (Some t)) => (w', Returned t)
  | (w', Exhausted _ None) => (w', Raised UnboundLocalError)
  | (w', Broke t) => (w', Returned t)
  | (w', Aborted e) => (w', Raised e)
  end.

(** The [while True] of [main], lines 157-167, run against a script of
    sessions; the lines before it, which load the credentials and build
    the client, are outside this model.  [None]: the script is used up and the driver is about to
    open the next session.  [Some e]: [e] went through [main] and ended
    the process.  The loop has no other way out. *)
Fixpoint main (script : list session) (w : world) : world * option exn :=
  match script with
  | [] => (w, None)
  | s :: script' =>
      match device_error s with
      | Some msg => (w, Some (OSError msg))
      | None =>
          match listen_print_loop (responses s) (enter_stream w) with
          | (w', Raised e) => (exit_stream w', Some e)
          | (w', Returned _) => main script' (exit_stream w')
          end
      end
  end.

End Client.

(** ** The capture session as an object

    The state [MicrophoneStream] keeps in [self], and the methods that
    change it: [__init__], [__enter__], [__exit__] and the audio callback
    [_fill_buffer]. *)

Module MicrophoneStreamObject.

Inductive sample_format := paInt16.
Inductive callback_flag := paContinue.

(** The arguments of [self._audio_interface.open], lines 30-37; the
    callback is [self._fill_buffer]. *)
Record open_request := {
  format : sample_format;
  channels : Z;
  rate : Z;
  input : bool;
  frames_per_buffer : Z
}.

Inductive stream_state :=
| Started     (* opened by [__enter__] *)
| Released.   (* after [stop_stream()] and [close()] *)

Record t := {
  _rate : Z;
  _chunk : Z;
  _buff : list (option bytes);      (* the [queue.Queue], oldest item first *)
  closed : bool;
  start_time : option float;
  _audio_interface : option bool;   (* unset before [__enter__]; [Some true] once terminated *)
  _audio_stream : option (open_request * stream_state)
}.

(** [__init__], lines 19-25. *)
Definition __init__ (rate chunk : Z) : t :=
  {| _rate := rate; _chunk := chunk; _buff := []; closed := true;
     start_time := None; _audio_interface := None; _audio_stream := None |}.

(** [__enter__], lines 27-40.  [now] is what [time.time()] returns;
    [device] is the message of the error [open] raises, if it does. *)
Definition __enter__ (now : float) (device : option string) (s : t)
    : t * option exn :=
  let s := {| _rate := _rate s; _chunk := _chunk s; _buff := _buff s;
              closed := closed s; start_time := start_time s;
              _audio_interface := Some false;
              _audio_stream := _audio_stream s |} in
  match device with
  | Some msg => (s, Some (OSError msg))
  | None =>
      ({| _rate := _rate s; _chunk := _chunk s; _buff := _buff s;
          closed := false; start_time := Some now;
          _audio_interface := _audio_interface s;
          _audio_stream :=
            Some ({| format := paInt16; channels := 1; rate := _rate s;
                     input := true; frames_per_buffer := _chunk s |},
                  Started) |},
       None)
  end.

(** [__exit__], lines 42-48.  [None]: [self._audio_stream] is not set and
    the first statement raises [AttributeError]. *)
Definition __exit__ (s : t) : option t :=
  match _audio_stream s with
  | None => None
  | Some (request, _) =>
      Some {| _rate := _rate s; _chunk := _chunk s;
              _buff := _buff s ++ [None];
              closed := true; start_time := start_time s;
              _audio_interface := Some true;
              _audio_stream := Some (request, Released) |}
  end.

(** [_fill_buffer], lines 50-53; the frame count, time info and status
    flags it is called with are not used. *)
Definition _fill_buffer (in_data : bytes) (s : t)
    : t * (option bytes * callback_flag) :=
  ({| _rate := _rate s; _chunk := _chunk s;
      _buff := _buff s ++ [Some in_data];
      closed := closed s; start_time := start_time s;
      _audio_interface := _audio_interface s;
      _audio_stream := _audio_stream s |},
   (None, paContinue)).

(** What touches the object from outside the generator. *)
Inductive op :=
| Enter (now : float) (device : option string)
| Fill (in_data : bytes)
| Exit.

(** A sequence of such calls; [None] when one of them raises. *)
Fixpoint run (ops : list op) (s : t) : option t :=
  match ops with
  | [] => Some s
  | Enter now device :: ops' =>
      match __enter__ now device s with
      | (s', None) => run ops' s'
      | (_, Some _) => None
      end
  | Fill in_data :: ops' => run ops' (fst (_fill_buffer in_data s))
  | Exit :: ops' =>
      match __exit__ s with
      | Some s' => run ops' s'
      | None => None
      end
  end.

(** The queue as a generator resumed now finds it: every item in it is
    there already. *)
Definition queued (s : t) : list MicrophoneStream.arrival :=
  map (MicrophoneStream.Arrival true) (_buff s).

(** One [next()] on the generator of the object, at time [now], with
    nothing else touching the object meanwhile. *)
Definition pull_once (s : t) (now : float)
    : list bytes * MicrophoneStream.ending :=
  MicrophoneStream.generator (start_time s)
    [MicrophoneStream.Pull (closed s) now] (queued s).

End MicrophoneStreamObject.

(** * What the specification speaks of *)

(** ** The chunk generator *)

(** A session entered at time 0 whose consumer pulls twice, well within
    the limit. *)
Definition two_pulls : list MicrophoneStream.pull :=
  [MicrophoneStream.Pull false 1%float; MicrophoneStream.Pull false 2%float].

(** The callback put one buffer and [__exit__] put the sentinel before the
    consumer was scheduled again. *)
Definition buffer_then_sentinel : list MicrophoneStream.arrival :=
  [MicrophoneStream.Arrival false (Some [x61]); MicrophoneStream.Arrival true None].

(** A producer run in which the sentinel is never found by the inner loop. *)
Definition sentinel_late (q : list MicrophoneStream.arrival) : bool :=
  forallb (fun a => match MicrophoneStream.payload a with
                    | None => negb (MicrophoneStream.ready a)
                    | Some _ => true
                    end) q.

(** ** The stop phrase *)

(** The character just before the position reached after reading [mid]
    from a position whose previous character is [prev]. *)
Definition last_read (prev : option N) (mid : list N) : option N :=
  fold_left (fun _ c => Some c) mid prev.

(** No word character just before: the text before is empty or ends with
    a character outside [\w]. *)
Definition free_before (db : Text.database) (pre : list N) : Prop :=
  forall pre' c, pre = pre' ++ [c] -> Text.is_word db c = false.

(** No word character just after: the text after is empty or starts with
    a character outside [\w]. *)
Definition free_after (db : Text.database) (post : list N) : Prop :=
  forall c post', post = c :: post' -> Text.is_word db c = false.

(** The text contains [w] as a whole word, whatever the case of its
    letters: a run of characters between two such places that is [w]
    once in lower case. *)
Definition contains_word (db : Text.database) (w : string) (t : string) : Prop :=
  exists pre mid post,
    Text.codepoints t = pre ++ mid ++ post
    /\ map (Text.tolower db) mid = Text.codepoints w
    /\ free_before db pre /\ free_after db post.

(** Whether there is a word character at this side of a position; at an
    end of the text there is none. *)
Definition word_char (db : Text.database) (c : option N) : bool :=
  match c with Some c => Text.is_word db c | None => false end.

(** A word boundary lies between [before] and [after]: a word character
    on one side only. *)
Definition boundary (db : Text.database) (before after : list N) : Prop :=
  word_char db (last_read None before) <> word_char db (hd_error after).

(** [re.I] takes the character [a] for the letter [c] of the pattern: the
    lower-case form of [a] is [c], or [c] is the letter i and [a] is the
    dotless i, U+0131. *)
Definition taken_for (db : Text.database) (c a : N) : Prop :=
  Text.tolower db a = c \/ (c = 105%N /\ Text.tolower db a = 305%N).

(** [mid] spells [w], letter by letter, for [re.I]. *)
Definition spells (db : Text.database) (w : string) (mid : list N) : Prop :=
  Forall2 (taken_for db) (Text.codepoints w) mid.

(** The text has a run that spells [w] for [re.I], between two word
    boundaries. *)
Definition has_stop_word (db : Text.database) (w : string) (t : string) : Prop :=
  exists pre mid post,
    Text.codepoints t = pre ++ mid ++ post
    /\ spells db w mid
    /\ boundary db pre (mid ++ post) /\ boundary db (pre ++ mid) post.

(** The letters of the pattern. *)
Definition stop_letters : list N :=
  Text.codepoints "exit" ++ Text.codepoints "quit".

(** ** The dispatcher and the relay *)

(** What the dispatcher looks at in a response: the transcript of the
    first alternative of the first result, and whether that result is
    final.  [None]: the response is skipped. *)
Definition examined (r : Response) : option (string * bool) :=
  match results r with
  | [] => None
  | result :: _ =>
      match alternatives result with
      | [] => None
      | alternative :: _ => Some (transcript alternative, is_final result)
      end
  end.

(** A response the loop skips: no results, or a first result without
    alternatives. *)
Definition skipped (r : Response) : Prop :=
  results r = []
  \/ exists result others, results r = result :: others /\ alternatives result = [].

(** The transcripts the loop sees, in order: it stops looking after a
    final one with the stop phrase. *)
Fixpoint seen (db : Text.database) (rs : list Response) : list string :=
  match rs with
  | [] => []
  | r :: rs' =>
      match examined r with
      | None => seen db rs'
      | Some (t, final) =>
          if final && exit_phrase db t then [t] else t :: seen db rs'
      end
  end.

Definition latest (l : list string) (before : option string) : option string :=
  fold_left (fun _ t => Some t) l before.

(** The last-seen transcript text. *)
Definition last_seen_transcript (db : Text.database) (rs : list Response)
    : option string :=
  latest (seen db rs) None.

(** No result of any response is final. *)
Definition no_final_result (rs : list Response) : bool :=
  forallb (fun r => forallb (fun x => negb (is_final x)) (results r)) rs.

(** The final results a response sequence contains. *)
Definition final_results (rs : list Response) : list Result :=
  filter is_final (flat_map results rs).

(** The transcripts of the responses the dispatcher handles as final. *)
Definition dispatched_finals (rs : list Response) : list string :=
  flat_map (fun r => match examined r with
                     | Some (t, true) => [t]
                     | _ => []
                     end) rs.

(** What the loop looked at in the last response of [pre] that it did not
    skip. *)
Definition last_handled (pre : list Response) : option (string * bool) :=
  fold_left (fun handled r =>
               match examined r with
               | Some x => Some x
               | None => handled
               end) pre None.

(** The length printed before, once the loop has been through [pre]: the
    length of the transcript of the last line, when that line is an
    interim one, which the next line overwrites; 0 at the start and after
    a final line. *)
Definition printed_before (pre : list Response) : Z :=
  match last_handled pre with
  | Some (t, false) => Text.len t
  | _ => 0
  end.

(** [n] spaces. *)
Definition spaces (n : nat) : string := string_of_list_ascii (repeat " "%char n).

(** The line end of a console line: carriage return for an interim
    result, newline for a final one. *)
Definition line_end (final : bool) : string :=
  if final then String "010" "" else String "013" "".

(** The body stream of an answer breaks with [e] before any chunk fails
    to decode. *)
Inductive stream_fails (decode_utf8 : bytes -> option string)
  : list body_item -> request_exception -> Prop :=
| fails_here e rest : stream_fails decode_utf8 (BodyFailure e :: rest) e
| fails_after_empty e rest :
    stream_fails decode_utf8 rest e ->
    stream_fails decode_utf8 (BodyChunk [] :: rest) e
| fails_after_chunk e rest b raw text :
    decode_utf8 (b :: raw) = Some text ->
    stream_fails decode_utf8 rest e ->
    stream_fails decode_utf8 (BodyChunk (b :: raw) :: rest) e.

(** The relay meets the transport or HTTP-status error [e] on this answer. *)
Inductive relay_fails (decode_utf8 : bytes -> option string)
  : http_answer -> request_exception -> Prop :=
| fails_post e : relay_fails decode_utf8 (NoAnswer e) e
| fails_status status body :
    is_error_status status = true ->
    relay_fails decode_utf8 (Answer status body) (HTTPError status)
| fails_stream status body e :
    is_error_status status = false ->
    stream_fails decode_utf8 body e ->
    relay_fails decode_utf8 (Answer status body) e.

(** *** Sample inputs *)

Definition interim (t : string) : Result :=
  {| alternatives := [{| transcript := t |}]; is_final := false |}.

Definition final (t : string) : Result :=
  {| alternatives := [{| transcript := t |}]; is_final := true |}.

(** A database with nothing from U+0180 on: no letter, no case. *)
Definition plain_database : Text.database :=
  {| Text.alnum := fun _ => false;
     Text.lower := fun c => c;
     Text.cased := fun _ => false |}.

(** A decoder for bodies of 7-bit characters. *)
Definition decode_ascii (raw : bytes) : option string :=
  if forallb (fun b => (Byte.to_N b <? 128)%N) raw
  then Some (string_of_list_byte raw)
  else None.

(** A backend that is down. *)
Definition backend_down (n : nat) : http_answer :=
  NoAnswer (ConnectionError "Connection refused").

(** A backend that answers every POST with the two chunks [ok] and [!]. *)
Definition backend_up (n : nat) : http_answer :=
  Answer 200 [BodyChunk [x6f; x6b]; BodyChunk [x21]].

Definition only_interim : list Response :=
  [{| results := [interim "hi"] |}].

Definition growing_interims : list Response :=
  [{| results := [interim "hel"] |}; {| results := [] |};
   {| results := [interim "hello"] |}].

(** The final result comes second in its response. *)
Definition final_in_second_place : list Response :=
  [{| results := [interim "hello"; final "hello world"] |}].

Definition interim_then_final : list Response :=
  [{| results := [interim "hello"] |}; {| results := [final "hello world"] |}].

Definition nothing_to_see : list Response :=
  [{| results := [] |}; {| results := [{| alternatives := []; is_final := true |}] |}].

Definition exit_session : session :=
  {| device_error := None;
     responses := [{| results := [interim "please ex"] |};
                   {| results := [final "please exit now"] |};
                   {| results := [final "never seen"] |}] |}.

(** ** More of what the code does *)

(** What a run of the generator leaves in the queue. *)
Definition remaining (e : MicrophoneStream.ending) : list MicrophoneStream.arrival :=
  match e with
  | MicrophoneStream.Exhausted rest => rest
  | MicrophoneStream.Suspended rest => rest
  | MicrophoneStream.Blocked => []
  | MicrophoneStream.TypeError => []
  end.

(** The generator is still running: parked at its [yield] or waiting on
    the queue. *)
Definition still_running (e : MicrophoneStream.ending) : bool :=
  match e with
  | MicrophoneStream.Suspended _ => true
  | MicrophoneStream.Blocked => true
  | _ => false
  end.

(** A pull on an open session within its limit. *)
Definition open_pull (t0 : float) (p : MicrophoneStream.pull) : bool :=
  negb (MicrophoneStream.closed_now p)
  && negb (MicrophoneStream.over_limit t0 (MicrophoneStream.time_now p)).

(** Buffers as the producer put them, each with whether it is there when
    the inner loop looks for it. *)
Definition put_buffers (bufs : list (bool * bytes)) : list MicrophoneStream.arrival :=
  map (fun rb => MicrophoneStream.Arrival (fst rb) (Some (snd rb))) bufs.

(** The texts the relay shows while the body arrives: after each chunk,
    all that was decoded so far. *)
Fixpoint growing_texts (shown : string) (chunks : list string) : list string :=
  match chunks with
  | [] => []
  | c :: chunks' => (shown ++ c)%string :: growing_texts (shown ++ c)%string chunks'
  end.

(** A body item the relay reads without trouble: an empty chunk, or one
    that decodes. *)
Definition readable (decode_utf8 : bytes -> option string) (item : body_item) : Prop :=
  exists raw, item = BodyChunk raw /\ (raw = [] \/ decode_utf8 raw <> None).

(** The transcripts that are posted: the ones that are not empty. *)
Definition posted (called : list string) : list http_request :=
  map backend_request (filter (fun t => negb (String.eqb t "")) called).

(** *** More sample inputs *)

Definition silent_session : session :=
  {| device_error := None; responses := [{| results := [] |}] |}.

Definition hello_session : session :=
  {| device_error := None;
     responses := [{| results := [interim "hel"] |};
                   {| results := [final "hello"] |}] |}.

(** A backend whose answer is not UTF-8. *)
Definition backend_garbled (n : nat) : http_answer :=
  Answer 200 [BodyChunk [x6f]; BodyChunk [xff]; BodyChunk [x21]].

(** * Properties *)

(** ** The chunk generator *)

Section GeneratorFacts.
Import MicrophoneStream.

Lemma buffers_app (q1 q2 : list arrival) :
  buffers (q1 ++ q2) = buffers q1 ++ buffers q2.
Proof. unfold buffers. apply flat_map_app. Qed.

(** The inner loop only appends, and what it appends are the buffers it
    took off the queue, in order. *)
Lemma drain_break (q : list arrival) :
  forall data data' rest,
    drain data q = DrainBreak data' rest ->
    exists got, data' = data ++ got /\ buffers q = got ++ buffers rest.
Proof.
  induction q as [|a q IH]; intros data data' rest H; simpl in H.
  - inversion H; subst. exists []. now rewrite app_nil_r.
  - destruct a as [r [c|]]; simpl in H; destruct r; try discriminate.
    + apply IH in H. destruct H as [got [-> Hq]].
      exists (c :: got). split.
      * now rewrite <- app_assoc.
      * unfold buffers at 1. simpl. fold (buffers q). now rewrite Hq.
    + inversion H; subst. exists []. now rewrite app_nil_r.
    + inversion H; subst. exists []. now rewrite app_nil_r.
Qed.

(** Nothing is reordered or duplicated: whatever is yielded is an initial
    part of the bytes that were put. *)
Lemma generator_yields_prefix (start_time : option float) (pulls : list pull) :
  forall q, exists lost,
    bytes_join (buffers q)
    = bytes_join (fst (generator start_time pulls q)) ++ lost.
Proof.
  induction pulls as [|p pulls IH]; intros q; simpl.
  - eexists. reflexivity.
  - destruct (closed_now p); [eexists; reflexivity|].
    destruct start_time as [t0|]; [|eexists; reflexivity].
    destruct (over_limit t0 (time_now p)); [eexists; reflexivity|].
    destruct q as [|[r [c|]] q]; simpl; try (eexists; reflexivity).
    destruct (drain [c] q) as [data rest|rest] eqn:D; [|eexists; reflexivity].
    apply drain_break in D. destruct D as [got [-> Hq]].
    destruct (IH rest) as [lost Hlost].
    destruct (generator (Some t0) pulls rest) as [ys e]. simpl in *.
    exists lost. unfold bytes_join in *.
    unfold buffers at 1. simpl. fold (buffers q).
    rewrite Hq, !concat_app, Hlost. simpl.
    now rewrite <- !app_assoc.
Qed.

(** Only buffers before a late sentinel: the inner loop stops at the
    first item that is not there yet, and never returns. *)
Lemma drain_before_late_sentinel (tail : list arrival) (q : list arrival) :
  forall data,
    sentinel_late q = true ->
    forallb (fun a => match payload a with Some _ => true | None => false end) q = true ->
    exists q1 q2,
      q = q1 ++ q2
      /\ sentinel_late q2 = true
      /\ forallb (fun a => match payload a with Some _ => true | None => false end) q2 = true
      /\ drain data (q ++ Arrival false None :: tail)
         = DrainBreak (data ++ buffers q1) (q2 ++ Arrival false None :: tail).
Proof.
  induction q as [|[r [c|]] q IHq]; intros data Hl Ha; simpl in *; try discriminate.
  - exists [], []. simpl. rewrite app_nil_r. repeat split; reflexivity.
  - destruct r.
    + destruct (IHq (data ++ [c]) Hl Ha) as [q1 [q2 [E [L [A D]]]]].
      exists (Arrival true (Some c) :: q1), q2.
      rewrite D, <- app_assoc. subst. repeat split; auto.
    + exists [], (Arrival false (Some c) :: q). simpl.
      rewrite app_nil_r. repeat split; auto.
Qed.

(** When the sentinel is only ever met by the blocking [get], the session
    stays open within its limit, and the consumer keeps pulling, every
    byte put before the sentinel is yielded. *)
Lemma generator_lossless (t0 : float) (pulls : list pull) :
  forall q tail,
    sentinel_late q = true ->
    forallb (fun a => match payload a with Some _ => true | None => false end) q = true ->
    forallb (fun p => negb (closed_now p) && negb (over_limit t0 (time_now p))) pulls = true ->
    (List.length q < List.length pulls)%nat ->
    snd (generator (Some t0) pulls (q ++ Arrival false None :: tail))
    = Exhausted tail
    /\ bytes_join (fst (generator (Some t0) pulls (q ++ Arrival false None :: tail)))
       = bytes_join (buffers q).
Proof.
  induction pulls as [|p pulls IH]; intros q tail Hlate Hall Hp Hlen; simpl in Hlen.
  - lia.
  - simpl in Hp. apply andb_true_iff in Hp. destruct Hp as [Hp0 Hp].
    apply andb_true_iff in Hp0. destruct Hp0 as [Hc Ho].
    apply negb_true_iff in Hc, Ho. simpl. rewrite Hc, Ho.
    destruct q as [|[r [c|]] q]; simpl in *; try discriminate.
    + split; reflexivity.
    + destruct (drain_before_late_sentinel tail q [c] Hlate Hall)
        as [q1 [q2 [E [L [A D]]]]].
      rewrite D.
      assert (Hlen2 : (List.length q2 < List.length pulls)%nat).
      { subst q. rewrite length_app in Hlen. lia. }
      destruct (IH q2 tail L A Hp Hlen2) as [E1 E2].
      destruct (generator (Some t0) pulls (q2 ++ Arrival false None :: tail)) as [ys e].
      simpl in *. subst e. split; [reflexivity|].
      unfold bytes_join in *. simpl. rewrite E2. subst q.
      rewrite buffers_app, !concat_app.
      now rewrite <- !app_assoc.
Qed.

(** C1, at an input where the claim fails: a buffer and the sentinel are
    both queued when the generator runs.  The buffer is taken by the
    blocking [get], the sentinel by the non-blocking one, and the [return]
    of line 70 ends the generator without the [yield] of line 75: nothing
    is yielded, though one byte was put. *)
Theorem generator_drops_buffers_drained_with_sentinel :
  generator (Some 0%float) two_pulls buffer_then_sentinel = ([], Exhausted [])
  /\ bytes_join (buffers buffer_then_sentinel) = [x61]
  /\ bytes_join (fst (generator (Some 0%float) two_pulls buffer_then_sentinel))
     <> bytes_join (buffers buffer_then_sentinel).
Proof.
  repeat split; try reflexivity. vm_compute. discriminate.
Qed.

(** C3: when the elapsed time is over the limit at a pull, the generator
    ends there: it yields nothing more, whatever else the consumer does,
    and takes nothing off the queue. *)
Theorem generator_ends_over_limit (t0 : float) (p : pull) (pulls : list pull)
    (q : list arrival) :
  over_limit t0 (time_now p) = true ->
  generator (Some t0) (p :: pulls) q = ([], Exhausted q).
Proof.
  intros H. simpl. rewrite H. now destruct (closed_now p).
Qed.

Lemma generator_ends_over_limit_witness :
  over_limit 1000%float 1300.5%float = true
  /\ generator (Some 1000%float)
       [Pull false 1300.5%float; Pull false 1300.75%float]
       [Arrival true (Some [x61]); Arrival true (Some [x62])]
     = ([], Exhausted [Arrival true (Some [x61]); Arrival true (Some [x62])]).
Proof.
  split; [reflexivity|].
  apply (generator_ends_over_limit 1000%float (Pull false 1300.5%float)).
  reflexivity.
Defined.

End GeneratorFacts.

(** ** The stop phrase: facts *)

Section ExitPhraseFacts.

Variable db : Text.database.

Lemma last_read_app (prev : option N) (a b : list N) :
  last_read prev (a ++ b) = last_read (last_read prev a) b.
Proof. unfold last_read. apply fold_left_app. Qed.

(** A literal word matches exactly the texts it takes letter by letter. *)
Lemma in_match_word (cs : list N) :
  forall k k',
    In k' (Re.match_here db true (Re.word cs) k)
    <-> exists mid, snd k = mid ++ snd k'
                    /\ Forall2 (fun c a => Re.lit_matches db true c a = true) cs mid
                    /\ fst k' = last_read (fst k) mid.
Proof.
  induction cs as [|c cs IH]; intros [prev rest] [prev' rest']; simpl.
  - split.
    + intros [E|[]]. inversion E; subst. exists []. repeat split. constructor.
    + intros [mid [E [L P]]]. inversion L; subst. simpl in *. subst. auto.
  - rewrite in_flat_map. split.
    + intros [k1 [H1 H2]]. destruct rest as [|a rest]; [contradiction|].
      destruct (Re.lit_matches db true c a) eqn:Ea; [|contradiction].
      destruct H1 as [<-|[]]. apply IH in H2. simpl in H2.
      destruct H2 as [mid [E [L P]]].
      exists (a :: mid). simpl. subst. repeat split; auto.
    + intros [mid [E [L P]]]. inversion L as [|c0 a cs0 mid0 Ha Lm]; subst.
      simpl in *.
      exists (Some a, mid0 ++ rest'). split.
      * rewrite Ha. now left.
      * apply IH. exists mid0. simpl. auto.
Qed.

(** What [re.I] makes of the letters of the pattern: all are cased and in
    lower case, and only the letter i has an extra case. *)
Lemma lit_matches_letter (c a : N) :
  In c stop_letters ->
  Re.lit_matches db true c a = true <-> taken_for db c a.
Proof.
  intros H. unfold Re.lit_matches, taken_for.
  vm_compute in H.
  repeat (destruct H as [<-|H]);
    try contradiction;
    (replace (Text.iscased db _) with true by reflexivity);
    (match goal with
     | |- context [Text.tolower db ?c] =>
         match c with
         | a => fail 1
         | _ => replace (Text.tolower db c) with c by reflexivity
         end
     end);
    cbn [andb existsb Text.extra_cases];
    (match goal with
     | |- context [Text.extra_cases ?c] =>
         let v := eval vm_compute in (Text.extra_cases c) in
         change (Text.extra_cases c) with v
     end);
    cbn [existsb];
    rewrite ?orb_true_iff, ?orb_false_r, ?N.eqb_eq;
    split; intros X;
    repeat match goal with
           | X : _ \/ _ |- _ => destruct X as [X|X]
           | X : _ /\ _ |- _ => destruct X as [? X]
           end;
    auto; try discriminate; try contradiction.
Qed.

Lemma spells_letters (w mid : list N) :
  incl w stop_letters ->
  Forall2 (fun c a => Re.lit_matches db true c a = true) w mid
  <-> Forall2 (taken_for db) w mid.
Proof.
  revert mid. induction w as [|c w IH]; intros mid I.
  - split; intros F; inversion F; constructor.
  - assert (Ic : In c stop_letters) by (apply I; now left).
    assert (Iw : incl w stop_letters) by (intros x Hx; apply I; now right).
    split; intros F; inversion F; subst; constructor;
      try (now apply lit_matches_letter);
      now apply IH.
Qed.

Lemma word_after_char (prev : option N) (after : list N) :
  Re.word_after db (prev, after) = word_char db (hd_error after).
Proof. now destruct after. Qed.

(** The test of [\b], at the position between [before] and [after]. *)
Lemma boundary_xorb (before x after : list N) (p : option N) :
  xorb (Re.word_before db (last_read None before, x))
       (Re.word_after db (p, after)) = true
  <-> boundary db before after.
Proof.
  unfold boundary. rewrite word_after_char.
  unfold Re.word_before. simpl. fold (word_char db (last_read None before)).
  destruct (word_char db (last_read None before)),
           (word_char db (hd_error after)); simpl; split;
    congruence.
Qed.

(** Where the whole pattern matches: at a word boundary, one of the two
    words, then a word boundary again. *)
Lemma in_match_exit_pattern (k k' : Re.cursor) :
  In k' (Re.match_here db true exit_pattern k)
  <-> xorb (Re.word_before db k) (Re.word_after db k) = true
      /\ xorb (Re.word_before db k') (Re.word_after db k') = true
      /\ exists mid, snd k = mid ++ snd k'
                     /\ (spells db "exit" mid \/ spells db "quit" mid)
                     /\ fst k' = last_read (fst k) mid.
Proof.
  unfold exit_pattern, spells.
  change (Re.match_here db true (Re.Cat Re.WordBoundary ?r) k)
    with (flat_map (Re.match_here db true r)
            (Re.match_here db true Re.WordBoundary k)).
  rewrite in_flat_map. split.
  - intros [k1 [H1 H2]]. simpl in H1.
    destruct (xorb (Re.word_before db k) (Re.word_after db k)) eqn:B; [|contradiction].
    destruct H1 as [<-|[]].
    change (In k' (flat_map (Re.match_here db true Re.WordBoundary)
                     (Re.match_here db true (Re.word (Text.codepoints "exit")) k
                      ++ Re.match_here db true (Re.word (Text.codepoints "quit")) k)))
      in H2.
    apply in_flat_map in H2. destruct H2 as [k2 [H2 H3]]. simpl in H3.
    destruct (xorb (Re.word_before db k2) (Re.word_after db k2)) eqn:B2; [|contradiction].
    destruct H3 as [<-|[]]. split; [reflexivity|]. split; [assumption|].
    apply in_app_iff in H2. destruct H2 as [H2|H2];
      apply in_match_word in H2; destruct H2 as [mid [E [L P]]];
      apply spells_letters in L;
      try (unfold stop_letters; intros x Hx; apply in_or_app; auto; fail);
      exists mid; auto.
  - intros [B [B' [mid [E [L P]]]]]. exists k. split.
    + simpl. rewrite B. now left.
    + change (In k' (flat_map (Re.match_here db true Re.WordBoundary)
                     (Re.match_here db true (Re.word (Text.codepoints "exit")) k
                      ++ Re.match_here db true (Re.word (Text.codepoints "quit")) k))).
      apply in_flat_map. exists k'. split.
      * apply in_app_iff. destruct L as [L|L]; [left|right];
          apply in_match_word; exists mid; repeat split; auto;
          apply spells_letters; auto;
          unfold stop_letters; intros x Hx; apply in_or_app; auto.
      * simpl. rewrite B'. now left.
Qed.

(** [re.search] finds a match exactly when some position has one. *)
Lemma search_from_true (r : Re.regex) (rest : list N) :
  forall prev,
    Re.search_from db true r prev rest = true
    <-> exists pre post k',
          rest = pre ++ post
          /\ In k' (Re.match_here db true r (last_read prev pre, post)).
Proof.
  induction rest as [|a rest IH]; intros prev; simpl.
  - destruct (Re.match_here db true r (prev, [])) as [|k0 ks] eqn:M.
    + split; [discriminate|].
      intros [pre [post [k' [E H]]]].
      symmetry in E. apply app_eq_nil in E. destruct E; subst.
      simpl in H. rewrite M in H. contradiction.
    + split; [|reflexivity]. intros _. exists [], [], k0. simpl.
      rewrite M. split; [reflexivity|now left].
  - destruct (Re.match_here db true r (prev, a :: rest)) as [|k0 ks] eqn:M.
    + rewrite IH. split.
      * intros [pre [post [k' [E H]]]]. exists (a :: pre), post, k'.
        subst. auto.
      * intros [pre [post [k' [E H]]]]. destruct pre as [|b pre].
        -- simpl in E, H. subst post. rewrite M in H. contradiction.
        -- inversion E; subst. exists pre, post, k'. auto.
    + split; [|reflexivity]. intros _. exists [], (a :: rest), k0. simpl.
      rewrite M. split; [reflexivity|now left].
Qed.

(** C5, amended: the stop-phrase check matches exactly the transcripts
    that have, between two word boundaries, four characters that [re.I]
    takes for the letters of exit or of quit: a character whose
    lower-case form is the letter, and for the letter i also the dotless
    i.  So it matches [please exit now] and [QUIT], does not match
    [exiting], and matches the spellings with a dotless or a dotted
    capital i. *)
Theorem exit_phrase_whole_word :
  (forall t : string,
     exit_phrase db t = true
     <-> has_stop_word db "exit" t \/ has_stop_word db "quit" t)
  /\ exit_phrase db "please exit now" = true
  /\ exit_phrase db "QUIT" = true
  /\ exit_phrase db "exiting" = false
  /\ exit_phrase db "exıt" = true
  /\ exit_phrase db "EXİT" = true.
Proof.
  split; [|repeat split; vm_compute; reflexivity].
  intros t. unfold exit_phrase, Re.search. rewrite search_from_true. split.
  - intros [pre [post [[prev' post'] [E H]]]].
    apply in_match_exit_pattern in H.
    destruct H as [B [B' [mid [Em [L P]]]]]. simpl in Em, P. subst post prev'.
    rewrite <- last_read_app in B'.
    apply boundary_xorb in B. apply boundary_xorb in B'.
    destruct L as [L|L]; [left|right]; exists pre, mid, post'; auto.
  - intros [H|H]; destruct H as [pre [mid [post [E [L [B B']]]]]];
      exists pre, (mid ++ post), (last_read (last_read None pre) mid, post);
      (split; [exact E|]);
      apply in_match_exit_pattern; simpl;
      (split; [now apply (boundary_xorb pre (mid ++ post))|]);
      (split; [rewrite <- last_read_app; now apply (boundary_xorb (pre ++ mid) post)|]);
      exists mid; auto.
Qed.

End ExitPhraseFacts.

(** ** The relay, the dispatcher and the driver *)

Section ClientFacts.

Variable unicode : Text.database.
Variable decode_utf8 : bytes -> option string.
Variable backend : nat -> http_answer.

Local Abbreviation exit_phrase := (exit_phrase unicode).
Local Abbreviation seen := (seen unicode).
Local Abbreviation last_seen_transcript := (last_seen_transcript unicode).

Local Abbreviation stream_body := (stream_body decode_utf8).
Local Abbreviation relay_try := (relay_try decode_utf8 backend).
Local Abbreviation send_text_to_backend := (send_text_to_backend decode_utf8 backend).
Local Abbreviation response_loop := (response_loop unicode decode_utf8 backend).
Local Abbreviation listen_print_loop := (listen_print_loop unicode decode_utf8 backend).
Local Abbreviation main := (main unicode decode_utf8 backend).

(** *** The relay *)

Lemma stream_body_effects (body : list body_item) :
  forall text w,
    posts (fst (stream_body body text w)) = posts w
    /\ relayed (fst (stream_body body text w)) = relayed w
    /\ mic_opened (fst (stream_body body text w)) = mic_opened w
    /\ mic_closed (fst (stream_body body text w)) = mic_closed w
    /\ exists evs, console (fst (stream_body body text w)) = console w ++ evs.
Proof.
  induction body as [|[raw|e] body IH]; intros text w; simpl.
  - repeat split; auto. exists []. now rewrite app_nil_r.
  - destruct raw as [|b raw]; [apply IH|].
    destruct (decode_utf8 (b :: raw)) as [d|]; simpl.
    + destruct (IH (text ++ d)%string
                  (emit (Write (String "013" (text ++ d))) (emit Flush w)))
        as [P [R [O [C [evs E]]]]].
      repeat split; auto. rewrite E. simpl. rewrite <- !app_assoc.
      eexists. reflexivity.
    + repeat split; auto. exists []. now rewrite app_nil_r.
  - repeat split; auto. exists []. now rewrite app_nil_r.
Qed.

(** Only a decoding error gets out of the loop over the body besides the
    errors of [requests]. *)
Lemma stream_body_raises (body : list body_item) :
  forall text w e,
    snd (stream_body body text w) = Some e ->
    e = UnicodeDecodeError \/ exists r, e = RequestException r.
Proof.
  induction body as [|[raw|r] body IH]; intros text w e; simpl.
  - discriminate.
  - destruct raw as [|b raw]; [apply IH|].
    destruct (decode_utf8 (b :: raw)); [apply IH|].
    simpl. intros H. inversion H. now left.
  - simpl. intros H. inversion H. right. now exists r.
Qed.

Lemma relay_try_raises (t : string) (w : world) (e : exn) :
  snd (relay_try t w) = Some e ->
  e = UnicodeDecodeError \/ exists r, e = RequestException r.
Proof.
  unfold relay_try. destruct (String.eqb t ""); [discriminate|].
  destruct (backend _) as [r|status body]; simpl.
  - intros H. inversion H. right. now exists r.
  - destruct (is_error_status status); simpl.
    + intros H. inversion H. right. eexists. reflexivity.
    + apply stream_body_raises.
Qed.

(** The handler leaves only the decoding error to the caller. *)
Lemma send_text_to_backend_raises (t : string) (w : world) (e : exn) :
  snd (send_text_to_backend t w) = Some e -> e = UnicodeDecodeError.
Proof.
  unfold send_text_to_backend.
  destruct (relay_try t (record_relay t w)) as [w' [x|]] eqn:R; [|discriminate].
  pose proof (relay_try_raises t (record_relay t w) x) as H.
  rewrite R in H. destruct (H eq_refl) as [->|[r ->]]; simpl.
  - intros E. now inversion E.
  - discriminate.
Qed.

Lemma relay_try_effects (t : string) (w : world) :
  posts (fst (relay_try t w))
  = (if String.eqb t "" then posts w else posts w ++ [backend_request t])
  /\ relayed (fst (relay_try t w)) = relayed w
  /\ mic_opened (fst (relay_try t w)) = mic_opened w
  /\ mic_closed (fst (relay_try t w)) = mic_closed w
  /\ exists evs, console (fst (relay_try t w)) = console w ++ evs.
Proof.
  unfold relay_try. destruct (String.eqb t "").
  - repeat split; auto. exists []. now rewrite app_nil_r.
  - destruct (backend _) as [r|status body]; simpl.
    + repeat split; auto. eexists. reflexivity.
    + destruct (is_error_status status); simpl.
      * repeat split; auto. eexists. reflexivity.
      * match goal with |- context [stream_body body ?x ?y] =>
          destruct (stream_body_effects body x y) as [P [R [O [C [evs E]]]]]
        end.
        rewrite P, R, O, C, E. simpl. repeat split; auto.
        rewrite <- app_assoc. eexists. reflexivity.
Qed.

Lemma send_text_to_backend_effects (t : string) (w : world) :
  posts (fst (send_text_to_backend t w))
  = (if String.eqb t "" then posts w else posts w ++ [backend_request t])
  /\ relayed (fst (send_text_to_backend t w)) = relayed w ++ [t]
  /\ mic_opened (fst (send_text_to_backend t w)) = mic_opened w
  /\ mic_closed (fst (send_text_to_backend t w)) = mic_closed w
  /\ exists evs, console (fst (send_text_to_backend t w)) = console w ++ evs.
Proof.
  unfold send_text_to_backend.
  destruct (relay_try_effects t (record_relay t w)) as [P [R [O [C [evs E]]]]].
  destruct (relay_try t (record_relay t w)) as [w' [[r| | |m]|]]; simpl in *;
    repeat split; auto; try (now exists evs).
  rewrite E, <- app_assoc. eexists. reflexivity.
Qed.

(** C7: the relay posts nothing for the empty transcript and posts once,
    with the transcript as the question, for any other. *)
Theorem relay_posts_iff_nonempty (t : string) (w : world) :
  posts (fst (send_text_to_backend t w))
  = if String.eqb t "" then posts w else posts w ++ [backend_request t].
Proof. apply send_text_to_backend_effects. Qed.

(** *** The response loop *)

Lemma response_loop_app (pre : list Response) :
  forall rest n last w,
    response_loop (pre ++ rest) n last w
    = match response_loop pre n last w with
      | (w', Exhausted n' last') => response_loop rest n' last' w'
      | left_early => left_early
      end.
Proof.
  induction pre as [|r pre IH]; intros rest n last w; simpl; [reflexivity|].
  destruct (results r) as [|result others]; [apply IH|].
  destruct (alternatives result) as [|alternative alts]; [apply IH|].
  destruct (is_final result); simpl; [|apply IH].
  destruct (send_text_to_backend _ _) as [w' [e|]]; [reflexivity|].
  destruct (exit_phrase _); [reflexivity|apply IH].
Qed.

Lemma response_loop_skips (r : Response) (rs : list Response) (n : Z)
    (last : option string) (w : world) :
  examined r = None ->
  response_loop (r :: rs) n last w = response_loop rs n last w.
Proof.
  unfold examined. simpl. destruct (results r) as [|result others]; [reflexivity|].
  destruct (alternatives result); [reflexivity|discriminate].
Qed.

(** One turn of the loop on a response that is not skipped. *)
Lemma response_loop_step (r : Response) (rs : list Response) (n : Z)
    (last : option string) (w : world) (t : string) (fin : bool) :
  examined r = Some (t, fin) ->
  response_loop (r :: rs) n last w
  = let w1 := emit Flush
                (emit (Write (t ++ Text.str_mul " " (n - Text.len t) ++ line_end fin)) w) in
    if fin then
      match send_text_to_backend t w1 with
      | (w2, Some e) => (w2, Aborted e)
      | (w2, None) =>
          if exit_phrase t
          then (emit (Print ["Exiting.."%string]) w2, Broke t)
          else response_loop rs 0 (Some t) w2
      end
    else response_loop rs (Text.len t) (Some t) w1.
Proof.
  unfold examined. simpl. destruct (results r) as [|result others]; [discriminate|].
  destruct (alternatives result) as [|alternative alts]; [discriminate|].
  intros E. inversion E; subst. destruct (is_final result); reflexivity.
Qed.

Lemma skipped_examined (r : Response) : skipped r <-> examined r = None.
Proof.
  unfold skipped, examined. split.
  - intros [->|[result [others [-> ->]]]]; reflexivity.
  - destruct (results r) as [|result others]; [now left|].
    destruct (alternatives result) eqn:A; [|discriminate].
    intros _. right. now exists result, others.
Qed.

Lemma response_loop_all_skipped (rs : list Response) :
  Forall skipped rs ->
  forall n last w, response_loop rs n last w = (w, Exhausted n last).
Proof.
  induction 1 as [|r rs Hr _ IH]; intros n last w; [reflexivity|].
  rewrite response_loop_skips by now apply skipped_examined.
  apply IH.
Qed.

(** C10: on a response sequence that is empty or all skipped, the loop
    prints nothing and its [return transcript] fails: the local was never
    bound. *)
Theorem listen_print_loop_unbound_on_skipped (rs : list Response) (w : world) :
  Forall skipped rs ->
  listen_print_loop rs w = (w, Raised UnboundLocalError).
Proof.
  intros H. unfold listen_print_loop.
  now rewrite (response_loop_all_skipped rs H).
Qed.

(** What the [for] statement leaves in the local [transcript]. *)
Lemma response_loop_last_seen (rs : list Response) :
  forall n last w,
    match snd (response_loop rs n last w) with
    | Exhausted _ last' => last' = latest (seen rs) last
    | Broke t => Some t = latest (seen rs) last
    | Aborted e => e = UnicodeDecodeError
    end.
Proof.
  induction rs as [|r rs IH]; intros n last w; [reflexivity|].
  destruct (examined r) as [[t fin]|] eqn:E.
  - rewrite (response_loop_step r rs n last w t fin E). simpl. rewrite E.
    destruct fin; simpl.
    + destruct (send_text_to_backend _ _) as [w2 [e|]] eqn:S; simpl.
      * apply (f_equal snd) in S. simpl in S.
        now apply send_text_to_backend_raises in S.
      * destruct (exit_phrase t); simpl; [reflexivity|apply IH].
    + apply IH.
  - rewrite (response_loop_skips r rs n last w E). simpl. rewrite E. apply IH.
Qed.

Lemma no_final_examined (r : Response) (t : string) (fin : bool) :
  forallb (fun x => negb (is_final x)) (results r) = true ->
  examined r = Some (t, fin) -> fin = false.
Proof.
  unfold examined. destruct (results r) as [|result others]; [discriminate|].
  simpl. intros H. apply andb_true_iff in H. destruct H as [H _].
  destruct (alternatives result); [discriminate|].
  intros E. inversion E. now apply negb_true_iff.
Qed.

(** Without a final result the loop runs to the end of the responses. *)
Lemma response_loop_no_final (rs : list Response) :
  no_final_result rs = true ->
  forall n last w, exists n' last',
    snd (response_loop rs n last w) = Exhausted n' last'.
Proof.
  induction rs as [|r rs IH]; intros H n last w; [now exists n, last|].
  simpl in H. apply andb_true_iff in H. destruct H as [Hr H].
  destruct (examined r) as [[t fin]|] eqn:E.
  - rewrite (response_loop_step r rs n last w t fin E).
    rewrite (no_final_examined r t fin Hr E). simpl. now apply IH.
  - rewrite (response_loop_skips r rs n last w E). now apply IH.
Qed.

(** The loop is only left through an exception when a relay call lets
    one out. *)
Lemma response_loop_not_aborted (rs : list Response) :
  (forall t' w', In t' (dispatched_finals rs) ->
                 snd (send_text_to_backend t' w') = None) ->
  forall n last w e, snd (response_loop rs n last w) <> Aborted e.
Proof.
  induction rs as [|r rs IH]; intros Ok n last w e; [discriminate|].
  destruct (examined r) as [[t fin]|] eqn:E.
  - rewrite (response_loop_step r rs n last w t fin E). cbv beta iota zeta.
    destruct fin.
    + match goal with |- context [send_text_to_backend t ?x] =>
        assert (O : snd (send_text_to_backend t x) = None)
          by (apply Ok; simpl; rewrite E; now left);
        destruct (send_text_to_backend t x) as [w2 o]
      end.
      simpl in O. subst o. destruct (exit_phrase t); [discriminate|].
      apply IH. intros t' w' I. apply Ok. simpl. rewrite E. now right.
    + apply IH. intros t' w' I. apply Ok. simpl. now rewrite E.
  - rewrite (response_loop_skips r rs n last w E).
    apply IH. intros t' w' I. apply Ok. simpl. now rewrite E.
Qed.


Lemma str_mul_spaces (n : Z) :
  Text.str_mul " " n = spaces (Z.to_nat (Z.max 0 n)).
Proof.
  unfold Text.str_mul, spaces. destruct (Z.leb_spec n 0) as [H|H].
  - now replace (Z.max 0 n) with 0%Z by lia.
  - replace (Z.max 0 n) with n by lia.
    induction (Z.to_nat n) as [|k IH]; simpl; [reflexivity|].
    f_equal. exact IH.
Qed.

Lemma codepoints_spaces (n : nat) :
  Text.codepoints (spaces n) = repeat 32%N n.
Proof.
  unfold Text.codepoints, spaces.
  rewrite list_ascii_of_string_of_list_ascii.
  induction n as [|n IH]; [reflexivity|].
  simpl repeat. simpl map.
  change (Text.codepoints_of (32%N :: map N_of_ascii (repeat " "%char n)))
    with (32%N :: Text.codepoints_of (map N_of_ascii (repeat " "%char n))).
  now rewrite IH.
Qed.

Lemma len_spaces (n : nat) : Text.len (spaces n) = Z.of_nat n.
Proof. unfold Text.len. now rewrite codepoints_spaces, repeat_length. Qed.

Lemma response_loop_console (rs : list Response) :
  forall n last w,
    exists evs, console (fst (response_loop rs n last w)) = console w ++ evs.
Proof.
  induction rs as [|r rs IH]; intros n last w.
  - exists []. simpl. now rewrite app_nil_r.
  - destruct (examined r) as [[t fin]|] eqn:E.
    + rewrite (response_loop_step r rs n last w t fin E). simpl.
      destruct fin.
      * match goal with |- context [send_text_to_backend t ?x] =>
          destruct (send_text_to_backend_effects t x) as [_ [_ [_ [_ [evs S]]]]];
          destruct (send_text_to_backend t x) as [w2 [e|]]
        end; simpl in *.
        -- rewrite S, <- !app_assoc. eexists. reflexivity.
        -- destruct (exit_phrase t); simpl.
           ++ rewrite S, <- !app_assoc. eexists. reflexivity.
           ++ destruct (IH 0%Z (Some t) w2) as [evs' ->].
              rewrite S, <- !app_assoc. eexists. reflexivity.
      * match goal with |- context [response_loop rs ?a ?b ?c] =>
          destruct (IH a b c) as [evs ->]
        end.
        simpl. rewrite <- !app_assoc. eexists. reflexivity.
    + rewrite (response_loop_skips r rs n last w E). apply IH.
Qed.

(** One turn of the loop on a response that is not skipped, interim or
    final: it first writes the transcript, then [max(0, L - M)] spaces,
    then the line end, where [L] is [num_chars_printed] and [M] the
    length of the transcript. *)
Lemma overwrite_step (L : Z) (r : Response) (rs : list Response)
    (last : option string) (w : world) (t : string) (fin : bool) :
  examined r = Some (t, fin) ->
  Text.len (Text.str_mul " " (L - Text.len t)) = Z.max 0 (L - Text.len t)
  /\ exists evs,
       console (fst (response_loop (r :: rs) L last w))
       = console w
         ++ Write (t ++ spaces (Z.to_nat (Z.max 0 (L - Text.len t))) ++ line_end fin)
         :: Flush :: evs.
Proof.
  intros E. split.
  { rewrite str_mul_spaces, len_spaces. lia. }
  rewrite <- str_mul_spaces.
  rewrite (response_loop_step r rs L last w t fin E). simpl.
  destruct fin.
  - match goal with |- context [send_text_to_backend t ?x] =>
      destruct (send_text_to_backend_effects t x) as [_ [_ [_ [_ [evs S]]]]];
      destruct (send_text_to_backend t x) as [w2 [e|]]
    end; simpl in *.
    + rewrite S, <- !app_assoc. eexists. reflexivity.
    + destruct (exit_phrase t); simpl.
      * rewrite S, <- !app_assoc. eexists. reflexivity.
      * destruct (response_loop_console rs 0%Z (Some t) w2) as [evs' ->].
        rewrite S, <- !app_assoc. eexists. reflexivity.
  - match goal with |- context [response_loop rs ?a ?b ?c] =>
      destruct (response_loop_console rs a b c) as [evs ->]
    end.
    simpl. rewrite <- !app_assoc. eexists. reflexivity.
Qed.

(** What [num_chars_printed] is after the loop has been through some
    responses: lines 124 and 137. *)
Lemma response_loop_printed (pre : list Response) :
  forall n0 last0 handled w w0 n last,
    response_loop pre n0 last0 w = (w0, Exhausted n last) ->
    n0 = match handled with Some (t, false) => Text.len t | _ => 0%Z end ->
    n = match fold_left (fun handled r =>
                           match examined r with
                           | Some x => Some x
                           | None => handled
                           end) pre handled with
        | Some (t, false) => Text.len t
        | _ => 0%Z
        end.
Proof.
  induction pre as [|r pre IH]; intros n0 last0 handled w w0 n last R Inv.
  - simpl in *. inversion R; subst. reflexivity.
  - destruct (examined r) as [[t fin]|] eqn:E.
    + rewrite (response_loop_step r pre n0 last0 w t fin E) in R.
      cbv beta iota zeta in R. simpl fold_left. rewrite E. destruct fin.
      * destruct (send_text_to_backend t _) as [w2 [e|]]; [discriminate|].
        destruct (exit_phrase t); [discriminate|].
        apply (IH _ _ (Some (t, true)) _ _ _ _ R). reflexivity.
      * apply (IH _ _ (Some (t, false)) _ _ _ _ R). reflexivity.
    + rewrite (response_loop_skips r pre n0 last0 w E) in R.
      simpl fold_left. rewrite E. apply (IH _ _ handled _ _ _ _ R). exact Inv.
Qed.

(** C4: when the loop comes to a response that is not skipped, interim or
    final, [num_chars_printed] is the length printed before, [L]: the
    length of the transcript of the line before when that line was an
    interim one, 0 at the start and after a final line.  The loop then
    writes the transcript, of length [M], then exactly [max(0, L - M)]
    spaces, then the line end. *)
Theorem overwrite_spaces_count (pre : list Response) (r : Response)
    (post : list Response) (w w0 : world) (n : Z) (last : option string)
    (t : string) (fin : bool) :
  response_loop pre 0 None w = (w0, Exhausted n last) ->
  examined r = Some (t, fin) ->
  n = printed_before pre
  /\ Text.len (Text.str_mul " " (n - Text.len t))
     = Z.max 0 (printed_before pre - Text.len t)
  /\ exists evs,
       console (fst (listen_print_loop (pre ++ r :: post) w))
       = console w0
         ++ Write (t ++ spaces (Z.to_nat (Z.max 0 (printed_before pre - Text.len t)))
                   ++ line_end fin)
         :: Flush :: evs.
Proof.
  intros R E.
  assert (N : n = printed_before pre)
    by (apply (response_loop_printed pre 0 None None w w0 n last R); reflexivity).
  destruct (overwrite_step n r post last w0 t fin E) as [C [evs W]].
  split; [exact N|]. rewrite <- N. split; [exact C|].
  exists evs. rewrite <- W. unfold listen_print_loop.
  rewrite response_loop_app, R.
  now destruct (response_loop (r :: post) n last w0) as [w' [n' [l|]|t'|e]].
Qed.

(** *** Finality and the relay *)

Lemma response_loop_without_final (rs : list Response) :
  dispatched_finals rs = [] ->
  forall n last w,
    posts (fst (response_loop rs n last w)) = posts w
    /\ relayed (fst (response_loop rs n last w)) = relayed w.
Proof.
  induction rs as [|r rs IH]; intros H n last w; [now split|].
  simpl in H. destruct (examined r) as [[t fin]|] eqn:E.
  - destruct fin; [discriminate|].
    rewrite (response_loop_step r rs n last w t false E). simpl.
    match goal with |- context [response_loop rs ?a ?b ?c] =>
      destruct (IH H a b c) as [P R]
    end.
    now rewrite P, R.
  - rewrite (response_loop_skips r rs n last w E). now apply IH.
Qed.

Lemma response_loop_single_final (rs : list Response) (t : string) :
  dispatched_finals rs = [t] -> t <> ""%string ->
  forall n last w,
    posts (fst (response_loop rs n last w)) = posts w ++ [backend_request t]
    /\ relayed (fst (response_loop rs n last w)) = relayed w ++ [t].
Proof.
  intros H Ht. induction rs as [|r rs IH]; intros n last w; [discriminate|].
  simpl in H. destruct (examined r) as [[t' fin]|] eqn:E.
  - rewrite (response_loop_step r rs n last w t' fin E). simpl.
    destruct fin.
    + simpl in H. injection H as Et Hrs. subst t'.
      match goal with |- context [send_text_to_backend t ?x] =>
        destruct (send_text_to_backend_effects t x) as [P [R _]];
        destruct (send_text_to_backend t x) as [w2 [e|]]
      end; simpl in *;
        (destruct (String.eqb_spec t "") as [C|_]; [contradiction|]).
      * now split.
      * destruct (exit_phrase t); simpl; [now split|].
        destruct (response_loop_without_final rs Hrs 0%Z (Some t) w2) as [P' R'].
        now rewrite P', R'.
    + match goal with |- context [response_loop rs ?a ?b ?c] =>
        destruct (IH H a b c) as [P R]
      end.
      now rewrite P, R.
  - rewrite (response_loop_skips r rs n last w E). now apply IH.
Qed.

(** C6, amended: when exactly one response has a final first result, with
    the first alternative's transcript [t] not empty, the relay is called
    once, with [t], and posts once, with [t] as the question. *)
Theorem single_final_relayed_once (rs : list Response) (w : world) (t : string) :
  dispatched_finals rs = [t] ->
  t <> ""%string ->
  posts (fst (listen_print_loop rs w)) = posts w ++ [backend_request t]
  /\ json (backend_request t) = [("Question"%string, t)]
  /\ relayed (fst (listen_print_loop rs w)) = relayed w ++ [t].
Proof.
  intros H Ht.
  destruct (response_loop_single_final rs t H Ht 0%Z None w) as [P R].
  unfold listen_print_loop.
  destruct (response_loop rs 0 None w) as [w' [n' [l|]|t'|e]]; simpl in *; auto.
Qed.

(** *** Relay failures *)

Lemma stream_body_fails (body : list body_item) (e : request_exception) :
  stream_fails decode_utf8 body e ->
  forall text w, exists w' evs,
    stream_body body text w = (w', Some (RequestException e))
    /\ console w' = console w ++ evs.
Proof.
  induction 1 as [e rest|e rest _ IH|e rest b raw d D _ IH]; intros text w; simpl.
  - exists w, []. now rewrite app_nil_r.
  - apply IH.
  - rewrite D.
    destruct (IH (text ++ d)%string
                (emit (Write (String "013" (text ++ d))) (emit Flush w)))
      as [w' [evs [S C]]].
    exists w'. eexists. split; [exact S|].
    rewrite C. simpl. rewrite <- !app_assoc. reflexivity.
Qed.

(** A transport or HTTP-status error never leaves the relay: it is
    printed, and the call returns. *)
Lemma send_text_to_backend_catches (t : string) (w : world)
    (e : request_exception) :
  t <> ""%string ->
  relay_fails decode_utf8 (backend (List.length (posts w))) e ->
  exists w' evs,
    send_text_to_backend t w = (w', None)
    /\ console w' = console w ++ evs ++ [PrintRelayError e].
Proof.
  intros Ht F. unfold send_text_to_backend, relay_try.
  destruct (String.eqb_spec t "") as [C|_]; [contradiction|].
  simpl. inversion F as [e' A|status body Hs A|status body e' Hs Hb A]; subst.
  - eexists. exists [Print ["Sending text to backend: "; t]%string].
    split; [reflexivity|]. simpl. now rewrite <- app_assoc.
  - rewrite Hs. eexists. exists [Print ["Sending text to backend: "; t]%string].
    split; [reflexivity|]. simpl. now rewrite <- app_assoc.
  - rewrite Hs.
    match goal with |- context [stream_body body ?x ?y] =>
      destruct (stream_body_fails body e Hb x y) as [w' [evs [S C]]]
    end.
    rewrite S. eexists.
    exists (Print ["Sending text to backend: "; t]%string :: evs).
    split; [reflexivity|].
    simpl. rewrite C. simpl. now rewrite <- !app_assoc.
Qed.

(** C8: when the relay call for a final result meets a transport or
    HTTP-status error, the error is printed inside the call, the call
    returns, and the loop goes on with the stop-phrase check on the
    transcript: it breaks on a match and takes the next response
    otherwise. *)
Theorem relay_failure_contained (r : Response) (rs : list Response) (n : Z)
    (last : option string) (w : world) (t : string) (e : request_exception) :
  examined r = Some (t, true) ->
  t <> ""%string ->
  relay_fails decode_utf8 (backend (List.length (posts w))) e ->
  exists w1 w2 evs,
    console w1 = console w ++ [Write (t ++ Text.str_mul " " (n - Text.len t) ++ line_end true); Flush]
    /\ send_text_to_backend t w1 = (w2, None)
    /\ console w2 = console w1 ++ evs ++ [PrintRelayError e]
    /\ response_loop (r :: rs) n last w
       = if exit_phrase t
         then (emit (Print ["Exiting.."%string]) w2, Broke t)
         else response_loop rs 0 (Some t) w2.
Proof.
  intros E Ht F.
  rewrite (response_loop_step r rs n last w t true E). simpl.
  match goal with |- context [send_text_to_backend t ?x] => set (w1 := x) end.
  destruct (send_text_to_backend_catches t w1 e Ht F) as [w2 [evs [S C]]].
  exists w1, w2, evs. rewrite S. repeat split; auto.
  subst w1. simpl. now rewrite <- app_assoc.
Qed.

(** *** The driver *)

(** C9, amended: when the loop of a session reaches a final result whose
    transcript has the stop phrase, and the relay call for it returns,
    the loop prints its notice and breaks; the driver closes the session and goes
    round again with what follows, so the process does not end there. *)
Theorem exit_phrase_restarts_session (s : session) (script : list session)
    (w : world) (pre : list Response) (r : Response) (post : list Response)
    (n : Z) (last : option string) (w0 w1 : world) (t : string) :
  device_error s = None ->
  responses s = pre ++ r :: post ->
  response_loop pre 0 None (enter_stream w) = (w0, Exhausted n last) ->
  examined r = Some (t, true) ->
  exit_phrase t = true ->
  send_text_to_backend t
    (emit Flush
       (emit (Write (t ++ Text.str_mul " " (n - Text.len t) ++ line_end true)) w0))
  = (w1, None) ->
  response_loop (responses s) 0 None (enter_stream w)
  = (emit (Print ["Exiting.."%string]) w1, Broke t)
  /\ main (s :: script) w
     = main script (exit_stream (emit (Print ["Exiting.."%string]) w1))
  /\ main [s] w = (exit_stream (emit (Print ["Exiting.."%string]) w1), None).
Proof.
  intros D R P E X S.
  assert (B : response_loop (responses s) 0 None (enter_stream w)
              = (emit (Print ["Exiting.."%string]) w1, Broke t)).
  { rewrite R, response_loop_app, P.
    rewrite (response_loop_step r post n last w0 t true E).
    cbv beta iota zeta. rewrite S, X. reflexivity. }
  split; [exact B|].
  split; simpl; rewrite D; unfold listen_print_loop; rewrite B; reflexivity.
Qed.

End ClientFacts.

(** ** Sample runs *)



Lemma overwrite_spaces_count_witness :
  5%Z = printed_before [{| results := [interim "hello"] |}]
  /\ Text.len (Text.str_mul " " (5 - Text.len "hi"))
     = Z.max 0 (printed_before [{| results := [interim "hello"] |}] - Text.len "hi")
  /\ exists evs,
       console (fst (listen_print_loop plain_database decode_ascii backend_up
                       ([{| results := [interim "hello"] |}]
                        ++ {| results := [interim "hi"] |} :: []) world0))
       = console (fst (response_loop plain_database decode_ascii backend_up
                         [{| results := [interim "hello"] |}] 0 None world0))
         ++ Write ("hi"
                   ++ spaces (Z.to_nat
                                (Z.max 0 (printed_before
                                            [{| results := [interim "hello"] |}]
                                          - Text.len "hi")))
                   ++ line_end false)
         :: Flush :: evs.
Proof.
  apply (overwrite_spaces_count plain_database decode_ascii backend_up
           [{| results := [interim "hello"] |}] {| results := [interim "hi"] |} []
           world0
           (fst (response_loop plain_database decode_ascii backend_up
                   [{| results := [interim "hello"] |}] 0 None world0))
           5 (Some "hello"%string) "hi" false); reflexivity.
Defined.

(** C6, as stated, fails: the sequence contains exactly one final result,
    with the transcript [hello world], and the relay is never called. *)
Lemma final_in_second_place_not_relayed :
  final_results final_in_second_place = [final "hello world"]
  /\ posts (fst (listen_print_loop plain_database decode_ascii backend_up
                   final_in_second_place world0)) = []
  /\ relayed (fst (listen_print_loop plain_database decode_ascii backend_up
                     final_in_second_place world0)) = [].
Proof. repeat split; reflexivity. Qed.

Lemma single_final_relayed_once_witness :
  posts (fst (listen_print_loop plain_database decode_ascii backend_up interim_then_final world0))
  = posts world0 ++ [backend_request "hello world"]
  /\ json (backend_request "hello world") = [("Question", "hello world")]%string
  /\ relayed (fst (listen_print_loop plain_database decode_ascii backend_up interim_then_final world0))
     = relayed world0 ++ ["hello world"%string].
Proof.
  apply (single_final_relayed_once plain_database decode_ascii backend_up interim_then_final
           world0 "hello world").
  - reflexivity.
  - discriminate.
Defined.

Lemma relay_failure_contained_witness :
  exists w1 w2 evs,
    console w1
    = console world0
      ++ [Write ("quit" ++ Text.str_mul " " (0 - Text.len "quit") ++ line_end true);
          Flush]
    /\ send_text_to_backend decode_ascii backend_down "quit" w1 = (w2, None)
    /\ console w2
       = console w1 ++ evs ++ [PrintRelayError (ConnectionError "Connection refused")]
    /\ response_loop plain_database decode_ascii backend_down
         [{| results := [final "quit"] |}] 0 None world0
       = if exit_phrase plain_database "quit"
         then (emit (Print ["Exiting.."%string]) w2, Broke "quit")
         else response_loop plain_database decode_ascii backend_down [] 0 (Some "quit"%string) w2.
Proof.
  apply (relay_failure_contained plain_database decode_ascii backend_down
           {| results := [final "quit"] |} [] 0 None world0 "quit"
           (ConnectionError "Connection refused")).
  - reflexivity.
  - discriminate.
  - apply fails_post.
Defined.

Lemma exit_phrase_restarts_session_witness :
  snd (main plain_database decode_ascii backend_up [exit_session] world0) = None
  /\ mic_opened (fst (main plain_database decode_ascii backend_up [exit_session; exit_session] world0))
     = 2%nat.
Proof.
  pose (w0 := fst (response_loop plain_database decode_ascii backend_up
                     [{| results := [interim "please ex"] |}] 0 None
                     (enter_stream world0))).
  pose (w1 := fst (send_text_to_backend decode_ascii backend_up "please exit now"
                     (emit Flush
                        (emit (Write ("please exit now"
                                      ++ Text.str_mul " " (9 - Text.len "please exit now")
                                      ++ line_end true)) w0)))).
  pose proof (fun script =>
              exit_phrase_restarts_session plain_database decode_ascii backend_up exit_session
                script world0 [{| results := [interim "please ex"] |}]
                {| results := [final "please exit now"] |}
                [{| results := [final "never seen"] |}]
                9 (Some "please ex"%string) w0 w1 "please exit now"
                eq_refl eq_refl eq_refl eq_refl eq_refl eq_refl) as H.
  split.
  - destruct (H []) as [_ [_ E]]. rewrite E. reflexivity.
  - destruct (H [exit_session]) as [_ [E _]]. rewrite E. reflexivity.
Defined.

(** C5, as stated, fails: the check matches a transcript spelled with a
    dotless i, which does not contain exit or quit in any letter case:
    the lower-case form of the dotless i is itself. *)
Lemma dotless_i_spells_exit :
  exit_phrase plain_database "exıt" = true
  /\ ~ contains_word plain_database "exit" "exıt"
  /\ ~ contains_word plain_database "quit" "exıt".
Proof.
  assert (C : Text.codepoints "exıt" = [101; 120; 305; 116]%N)
    by (vm_compute; reflexivity).
  split; [vm_compute; reflexivity|].
  split; intros [pre [mid [post [E [L _]]]]]; rewrite C in E;
    pose proof (f_equal (@List.length N) L) as Lm;
    rewrite length_map in Lm;
    (match type of Lm with
     | _ = ?x => let v := eval vm_compute in x in change x with v in Lm
     end);
    pose proof (f_equal (@List.length N) E) as El;
    rewrite !length_app, Lm in El; simpl in El;
    (destruct pre as [|p pre]; [|simpl in El; lia]);
    (destruct post as [|q post]; [|simpl in El; lia]);
    simpl in E; rewrite app_nil_r in E; subst mid;
    vm_compute in L; discriminate L.
Qed.

(** C9, as stated, fails: the final transcript has the stop phrase, but
    the relay call for it lets a decoding error out before the check, so
    the loop prints no notice and does not break, and the error ends the
    process in its first session. *)
Lemma stop_phrase_with_garbled_answer_ends_process :
  examined {| results := [final "please exit now"] |} = Some ("please exit now"%string, true)
  /\ exit_phrase plain_database "please exit now" = true
  /\ snd (main plain_database decode_ascii backend_garbled
            [exit_session; exit_session] world0)
     = Some UnicodeDecodeError
  /\ mic_opened (fst (main plain_database decode_ascii backend_garbled
                        [exit_session; exit_session] world0)) = 1%nat
  /\ ~ In (Print ["Exiting.."%string])
          (console (fst (main plain_database decode_ascii backend_garbled
                           [exit_session; exit_session] world0))).
Proof.
  repeat split; try (vm_compute; reflexivity).
  vm_compute. intros H.
  repeat (destruct H as [H|H]; [discriminate H|]).
  exact H.
Qed.

Lemma listen_print_loop_unbound_on_skipped_witness :
  Forall skipped nothing_to_see
  /\ listen_print_loop plain_database decode_ascii backend_up nothing_to_see world0
     = (world0, Raised UnboundLocalError).
Proof.
  assert (H : Forall skipped nothing_to_see).
  { constructor; [now left|].
    constructor; [|constructor].
    right. eexists. eexists. split; reflexivity. }
  split; [exact H|].
  apply (listen_print_loop_unbound_on_skipped plain_database decode_ascii backend_up
           nothing_to_see world0 H).
Defined.

(** * More properties of the code *)

(** ** The chunk generator *)

Section GeneratorAccounting.
Import MicrophoneStream.

(** The inner loop, when it meets the sentinel, has only taken buffers
    off the queue. *)
Lemma drain_return (q : list arrival) :
  forall data rest,
    drain data q = DrainReturn rest ->
    exists got, buffers q = got ++ buffers rest.
Proof.
  induction q as [|a q IH]; intros data rest H; simpl in H; [discriminate|].
  destruct a as [r [c|]]; simpl in H; destruct r; try discriminate.
  - apply IH in H. destruct H as [got Hq].
    exists (c :: got). unfold buffers at 1. simpl. fold (buffers q). now rewrite Hq.
  - inversion H; subst. now exists [].
Qed.

(** X1: every byte put on the queue is accounted for: it was yielded, or
    it is still in the queue, or it was taken in a pull that ended the
    generator; while the generator is still running nothing is in the
    third group. *)
Theorem generator_accounts_for_every_byte (start_time : option float)
    (pulls : list pull) (q : list arrival) :
  exists lost,
    bytes_join (buffers q)
    = bytes_join (fst (generator start_time pulls q)) ++ lost
      ++ bytes_join (buffers (remaining (snd (generator start_time pulls q))))
    /\ (still_running (snd (generator start_time pulls q)) = true -> lost = []).
Proof.
  revert q. induction pulls as [|p pulls IH]; intros q; simpl.
  - exists []. split; reflexivity.
  - destruct (closed_now p); [exists []; split; reflexivity|].
    destruct start_time as [t0|].
    2:{ exists (bytes_join (buffers q)). simpl.
        split; [now rewrite app_nil_r|discriminate]. }
    destruct (over_limit t0 (time_now p)); [exists []; split; reflexivity|].
    destruct q as [|[r [c|]] q]; simpl; try (exists []; split; reflexivity).
    destruct (drain [c] q) as [data rest|rest] eqn:D.
    + apply drain_break in D. destruct D as [got [-> Hq]].
      destruct (IH rest) as [lost [Hlost Hrun]].
      destruct (generator (Some t0) pulls rest) as [ys e]. simpl in *.
      exists lost. split; [|exact Hrun].
      unfold bytes_join in *. unfold buffers at 1. simpl. fold (buffers q).
      rewrite Hq, !concat_app, Hlost. simpl.
      now rewrite <- !app_assoc.
    + apply drain_return in D. destruct D as [got Hq]. simpl.
      exists (c ++ bytes_join got). split; [|discriminate].
      unfold bytes_join. unfold buffers at 1. simpl. fold (buffers q).
      now rewrite Hq, concat_app, <- app_assoc.
Qed.

(** X2: chunks are merged, never split: there is at most one yield for
    each pull, and each yield uses up at least one buffer of the queue. *)
Theorem generator_merges_buffers (start_time : option float)
    (pulls : list pull) (q : list arrival) :
  (List.length (fst (generator start_time pulls q)) <= List.length pulls)%nat
  /\ (List.length (fst (generator start_time pulls q))
      + List.length (buffers (remaining (snd (generator start_time pulls q))))
      <= List.length (buffers q))%nat.
Proof.
  revert q. induction pulls as [|p pulls IH]; intros q; simpl.
  - split; lia.
  - destruct (closed_now p); [simpl; split; lia|].
    destruct start_time as [t0|]; [|simpl; split; lia].
    destruct (over_limit t0 (time_now p)); [simpl; split; lia|].
    destruct q as [|[r [c|]] q]; simpl; try (split; lia).
    unfold buffers at 2. simpl. fold (buffers q).
    destruct (drain [c] q) as [data rest|rest] eqn:D.
    + apply drain_break in D. destruct D as [got [-> Hq]].
      destruct (IH rest) as [H1 H2].
      destruct (generator (Some t0) pulls rest) as [ys e]. simpl in *.
      rewrite Hq, length_app. split; lia.
    + apply drain_return in D. destruct D as [got Hq]. simpl.
      rewrite Hq, length_app. split; lia.
Qed.

Lemma buffers_put_buffers (bufs : list (bool * bytes)) :
  buffers (put_buffers bufs) = map snd bufs.
Proof.
  unfold buffers, put_buffers. induction bufs as [|b bufs IH]; simpl; [reflexivity|].
  now rewrite IH.
Qed.

(** X3: when the session is open and within its limit at every pull, the
    consumer pulls more often than there are buffers, and the sentinel is
    not yet queued when the inner loop looks for it, the generator yields
    every byte put before the sentinel, takes the sentinel with its
    blocking [get] and ends, leaving what follows in the queue. *)
Theorem generator_delivers_all_before_late_sentinel (t0 : float)
    (pulls : list pull) (bufs : list (bool * bytes)) (tail : list arrival) :
  forallb (open_pull t0) pulls = true ->
  (List.length bufs < List.length pulls)%nat ->
  snd (generator (Some t0) pulls (put_buffers bufs ++ Arrival false None :: tail))
  = Exhausted tail
  /\ bytes_join (fst (generator (Some t0) pulls
                        (put_buffers bufs ++ Arrival false None :: tail)))
     = bytes_join (map snd bufs).
Proof.
  intros Hp Hlen. rewrite <- buffers_put_buffers.
  apply generator_lossless.
  - unfold sentinel_late, put_buffers.
    induction bufs as [|b bufs IH]; simpl in *; [reflexivity|apply IH; lia].
  - unfold put_buffers.
    induction bufs as [|b bufs IH]; simpl in *; [reflexivity|apply IH; lia].
  - exact Hp.
  - unfold put_buffers. now rewrite length_map.
Qed.

Lemma generator_delivers_all_before_late_sentinel_witness :
  snd (generator (Some 0%float)
         [Pull false 1%float; Pull false 2%float; Pull false 3%float]
         (put_buffers [(false, [x61]); (true, [x62])]
          ++ Arrival false None :: [Arrival true (Some [x63])]))
  = Exhausted [Arrival true (Some [x63])]
  /\ bytes_join (fst (generator (Some 0%float)
                        [Pull false 1%float; Pull false 2%float; Pull false 3%float]
                        (put_buffers [(false, [x61]); (true, [x62])]
                         ++ Arrival false None :: [Arrival true (Some [x63])])))
     = bytes_join (map snd [(false, [x61]); (true, [x62])]).
Proof.
  apply (generator_delivers_all_before_late_sentinel 0%float
           [Pull false 1%float; Pull false 2%float; Pull false 3%float]
           [(false, [x61]); (true, [x62])] [Arrival true (Some [x63])]).
  - reflexivity.
  - simpl. lia.
Defined.

End GeneratorAccounting.

(** ** The capture session as an object *)

Section StreamLifecycle.
Import MicrophoneStreamObject.

(** The callbacks only add to the end of the queue. *)
Lemma run_fills (bufs : list bytes) :
  forall ops s,
    run (map Fill bufs ++ ops) s
    = run ops {| _rate := _rate s; _chunk := _chunk s;
                 _buff := _buff s ++ map Some bufs;
                 closed := closed s; start_time := start_time s;
                 _audio_interface := _audio_interface s;
                 _audio_stream := _audio_stream s |}.
Proof.
  induction bufs as [|b bufs IH]; intros ops s; simpl.
  - rewrite app_nil_r. now destruct s.
  - rewrite IH. simpl. now rewrite <- app_assoc.
Qed.

(** The inner loop takes everything that is queued. *)
Lemma drain_all_queued (bufs : list bytes) :
  forall data,
    MicrophoneStream.drain data
      (map (MicrophoneStream.Arrival true) (map Some bufs))
    = MicrophoneStream.DrainBreak (data ++ bufs) [].
Proof.
  induction bufs as [|b bufs IH]; intros data; simpl.
  - now rewrite app_nil_r.
  - rewrite IH. now rewrite <- app_assoc.
Qed.

(** X4: after a whole session on a new object ([__enter__], any number
    of callbacks, [__exit__]) the queue holds the buffers in the order of
    the callbacks, then the sentinel, and the object is closed; a
    generator resumed then ends without yielding, and leaves all of it in
    the queue. *)
Theorem queue_after_session (rate chunk : Z) (t0 now : float)
    (bufs : list bytes) :
  exists s,
    run (Enter t0 None :: map Fill bufs ++ [Exit]) (__init__ rate chunk) = Some s
    /\ _buff s = map Some bufs ++ [None]
    /\ closed s = true
    /\ pull_once s now = ([], MicrophoneStream.Exhausted (queued s)).
Proof.
  eexists. split.
  - simpl. rewrite run_fills. simpl. reflexivity.
  - simpl. repeat split.
Qed.

(** What every call keeps true: an object that is not closed has its
    start time set. *)
Lemma run_keeps_start_time (ops : list op) :
  forall s s',
    (closed s = false -> start_time s <> None) ->
    run ops s = Some s' ->
    closed s' = false -> start_time s' <> None.
Proof.
  induction ops as [|[t0 device|in_data|] ops IH]; intros s s' Inv R; simpl in R.
  - now inversion R; subst.
  - destruct device as [msg|]; [discriminate|].
    revert R. apply IH. simpl. discriminate.
  - revert R. apply IH. exact Inv.
  - unfold __exit__ in R. destruct (_audio_stream s) as [[request st]|]; [|discriminate].
    revert R. apply IH. simpl. discriminate.
Qed.

(** X5: whatever was called on an object since [__init__], in whatever
    order, as long as no call raised, a generator resumed on it does not
    fail on an unset start time: [time.time() - None] is never computed. *)
Theorem generator_never_subtracts_none (rate chunk : Z) (ops : list op)
    (s : t) (now : float) :
  run ops (__init__ rate chunk) = Some s ->
  snd (pull_once s now) <> MicrophoneStream.TypeError.
Proof.
  intros R.
  pose proof (run_keeps_start_time ops (__init__ rate chunk) s) as Inv.
  unfold pull_once. simpl. destruct (closed s) eqn:C; [discriminate|].
  destruct (start_time s) as [t0|] eqn:S.
  - destruct (MicrophoneStream.over_limit t0 now); [discriminate|].
    destruct (queued s) as [|[r [c|]] q]; simpl; try discriminate.
    destruct (MicrophoneStream.drain [c] q); discriminate.
  - exfalso. apply Inv; auto. simpl. discriminate.
Qed.

Lemma generator_never_subtracts_none_witness :
  snd (pull_once (fst (_fill_buffer [x61] (__init__ RATE CHUNK))) 5%float)
  <> MicrophoneStream.TypeError.
Proof.
  apply (generator_never_subtracts_none RATE CHUNK [Fill [x61]]).
  reflexivity.
Defined.

(** X6: on an entered object, one pull within the limit yields a single
    chunk, the concatenation of all the buffers the callbacks have queued
    so far, and empties the queue; with nothing queued the generator
    waits in its blocking [get]. *)
Theorem pull_coalesces_queue (rate chunk : Z) (t0 now : float)
    (bufs : list bytes) :
  MicrophoneStream.over_limit t0 now = false ->
  exists s,
    run (Enter t0 None :: map Fill bufs) (__init__ rate chunk) = Some s
    /\ pull_once s now
       = match bufs with
         | [] => ([], MicrophoneStream.Blocked)
         | _ :: _ => ([bytes_join bufs], MicrophoneStream.Suspended [])
         end.
Proof.
  intros L. eexists. split.
  - simpl. rewrite <- (app_nil_r (map Fill bufs)), run_fills. simpl. reflexivity.
  - unfold pull_once, queued. simpl. rewrite L.
    destruct bufs as [|b bufs]; simpl; [reflexivity|].
    now rewrite drain_all_queued.
Qed.

Lemma pull_coalesces_queue_witness :
  exists s,
    run (Enter 10%float None :: map Fill [[x61]; [x62; x63]]) (__init__ RATE CHUNK)
    = Some s
    /\ pull_once s 11%float
       = ([bytes_join [[x61]; [x62; x63]]], MicrophoneStream.Suspended []).
Proof.
  apply (pull_coalesces_queue RATE CHUNK 10%float 11%float [[x61]; [x62; x63]]).
  reflexivity.
Defined.

End StreamLifecycle.

(** ** The relay *)

Section RelayMore.

Variable decode_utf8 : bytes -> option string.
Variable backend : nat -> http_answer.

Local Abbreviation stream_body := (stream_body decode_utf8).
Local Abbreviation relay_try := (relay_try decode_utf8 backend).
Local Abbreviation send_text_to_backend := (send_text_to_backend decode_utf8 backend).

(** The loop over the body lets a decoding error out exactly when it
    reaches a chunk that is not empty and does not decode. *)
Lemma stream_body_decode_error (body : list body_item) :
  forall text w,
    snd (stream_body body text w) = Some UnicodeDecodeError
    <-> exists pre raw post,
          body = pre ++ BodyChunk raw :: post
          /\ Forall (readable decode_utf8) pre
          /\ raw <> [] /\ decode_utf8 raw = None.
Proof.
  induction body as [|item body IH]; intros text w.
  - simpl. split; [discriminate|].
    intros [pre [raw [post [E _]]]]. now destruct pre.
  - destruct item as [[|b raw]|e]; simpl.
    + rewrite IH. split.
      * intros [pre [raw [post [E [F [N D]]]]]].
        exists (BodyChunk [] :: pre), raw, post. subst. repeat split; auto.
        constructor; [|exact F]. exists []. auto.
      * intros [pre [raw [post [E [F [N D]]]]]].
        destruct pre as [|x pre]; simpl in E; inversion E; subst.
        -- contradiction.
        -- exists pre, raw, post. inversion F; subst. auto.
    + destruct (decode_utf8 (b :: raw)) as [d|] eqn:Dd.
      * rewrite IH. split.
        -- intros [pre [raw' [post [E [F [N D]]]]]].
           exists (BodyChunk (b :: raw) :: pre), raw', post. subst.
           repeat split; auto.
           constructor; [|exact F]. exists (b :: raw). split; [reflexivity|].
           right. congruence.
        -- intros [pre [raw' [post [E [F [N D]]]]]].
           destruct pre as [|x pre]; simpl in E; inversion E; subst.
           ++ congruence.
           ++ exists pre, raw', post. inversion F; subst. auto.
      * simpl. split; [|reflexivity]. intros _.
        exists [], (b :: raw), body. repeat split; auto. discriminate.
    + split; [discriminate|].
      intros [pre [raw [post [E [F [N D]]]]]].
      destruct pre as [|x pre]; simpl in E; inversion E; subst.
      inversion F as [|x l [raw' [X _]] F']. discriminate.
Qed.

(** X7: the relay lets an exception out to its caller in one case only:
    the transcript is not empty, the backend answers with a status that
    is no error, and the body reaches a chunk that is not empty and is
    not UTF-8 before the stream breaks or ends; the exception is then the
    decoding error. *)
Theorem relay_raises_iff (t : string) (w : world) (e : exn) :
  snd (send_text_to_backend t w) = Some e
  <-> e = UnicodeDecodeError
      /\ t <> ""%string
      /\ exists status pre raw post,
           backend (List.length (posts w)) = Answer status (pre ++ BodyChunk raw :: post)
           /\ is_error_status status = false
           /\ Forall (readable decode_utf8) pre
           /\ raw <> [] /\ decode_utf8 raw = None.
Proof.
  unfold send_text_to_backend, relay_try.
  destruct (String.eqb_spec t "") as [->|Ht]; simpl.
  - split; [discriminate|]. intros [_ [C _]]. contradiction.
  - destruct (backend (List.length (posts w))) as [r|status body] eqn:B; simpl.
    + split; [discriminate|].
      intros [_ [_ [status [pre [raw [post [E _]]]]]]]. discriminate.
    + destruct (is_error_status status) eqn:S; simpl.
      * split; [discriminate|].
        intros [_ [_ [status' [pre [raw [post [E [S' _]]]]]]]].
        inversion E; subst. congruence.
      * match goal with |- context [stream_body body ?x ?y] =>
          pose proof (stream_body_decode_error body x y) as D;
          pose proof (stream_body_raises decode_utf8 body x y) as R;
          destruct (stream_body body x y) as [w' [x'|]]
        end; simpl in *.
        -- destruct (R x' eq_refl) as [->|[r ->]]; simpl.
           ++ split.
              ** intros E. inversion E; subst. repeat split; auto.
                 destruct (proj1 D eq_refl) as [pre [raw [post [Eb F]]]].
                 exists status, pre, raw, post. subst. auto.
              ** intros [-> _]. reflexivity.
           ++ split; [discriminate|].
              intros [_ [_ [status' [pre [raw [post [E [_ F]]]]]]]].
              inversion E; subst.
              assert (X : Some (RequestException r) = Some UnicodeDecodeError)
                by (apply D; exists pre, raw, post; auto).
              discriminate.
        -- split; [discriminate|].
           intros [_ [_ [status' [pre [raw [post [E [_ F]]]]]]]].
           inversion E; subst.
           assert (X : @None exn = Some UnicodeDecodeError)
             by (apply D; exists pre, raw, post; auto).
           discriminate.
Qed.

Lemma stream_body_growing (raws : list bytes) (texts : list string) :
  Forall2 (fun raw text => raw <> [] /\ decode_utf8 raw = Some text) raws texts ->
  forall shown w,
    snd (stream_body (map BodyChunk raws) shown w) = None
    /\ console (fst (stream_body (map BodyChunk raws) shown w))
       = console w
         ++ flat_map (fun text => [Flush; Write (String "013" text)])
              (growing_texts shown texts).
Proof.
  induction 1 as [|raw text raws texts [N D] _ IH]; intros shown w; simpl.
  - now rewrite app_nil_r.
  - destruct raw as [|b raw]; [contradiction|]. rewrite D.
    destruct (IH (shown ++ text)%string
                (emit (Write (String "013" (shown ++ text))) (emit Flush w)))
      as [R C].
    split; [exact R|]. rewrite C. simpl. now rewrite <- !app_assoc.
Qed.

(** X8: when the backend answers a transcript that is not empty with a
    status that is no error and a body of chunks that all decode, the
    relay returns, and what it prints is its notice followed, for each
    chunk, by a flush and a carriage return with all the text decoded so
    far: the text grows on one line. *)
Theorem relay_shows_growing_text (t : string) (w : world) (status : Z)
    (raws : list bytes) (texts : list string) :
  t <> ""%string ->
  backend (List.length (posts w)) = Answer status (map BodyChunk raws) ->
  is_error_status status = false ->
  Forall2 (fun raw text => raw <> [] /\ decode_utf8 raw = Some text) raws texts ->
  snd (send_text_to_backend t w) = None
  /\ console (fst (send_text_to_backend t w))
     = console w
       ++ Print ["Sending text to backend: "%string; t]
       :: flat_map (fun text => [Flush; Write (String "013" text)])
            (growing_texts "" texts).
Proof.
  intros Ht B S F. unfold send_text_to_backend, relay_try.
  destruct (String.eqb_spec t "") as [C|_]; [contradiction|].
  simpl. rewrite B, S.
  match goal with |- context [stream_body (map BodyChunk raws) ?x ?y] =>
    destruct (stream_body_growing raws texts F x y) as [R C];
    destruct (stream_body (map BodyChunk raws) x y) as [w' o]
  end.
  simpl in *. subst o. simpl. split; [reflexivity|].
  rewrite C. simpl. now rewrite <- app_assoc.
Qed.

End RelayMore.

Lemma relay_shows_growing_text_witness :
  snd (send_text_to_backend decode_ascii backend_up "hello" world0) = None
  /\ console (fst (send_text_to_backend decode_ascii backend_up "hello" world0))
     = console world0
       ++ Print ["Sending text to backend: "; "hello"]%string
       :: flat_map (fun text => [Flush; Write (String "013" text)])
            (growing_texts "" ["ok"; "!"]%string).
Proof.
  apply (relay_shows_growing_text decode_ascii backend_up "hello" world0 200
           [[x6f; x6b]; [x21]] ["ok"; "!"]%string).
  - discriminate.
  - reflexivity.
  - reflexivity.
  - repeat constructor; discriminate.
Defined.

(** ** The response loop and the driver *)

Section DispatcherMore.

Variable unicode : Text.database.
Variable decode_utf8 : bytes -> option string.
Variable backend : nat -> http_answer.

Local Abbreviation exit_phrase := (exit_phrase unicode).
Local Abbreviation seen := (seen unicode).
Local Abbreviation last_seen_transcript := (last_seen_transcript unicode).

Local Abbreviation send_text_to_backend := (send_text_to_backend decode_utf8 backend).
Local Abbreviation response_loop := (response_loop unicode decode_utf8 backend).
Local Abbreviation listen_print_loop := (listen_print_loop unicode decode_utf8 backend).
Local Abbreviation main := (main unicode decode_utf8 backend).

Lemma latest_app (l : list string) (t : string) (before : option string) :
  latest (l ++ [t]) before = Some t.
Proof. unfold latest. now rewrite fold_left_app. Qed.

Lemma latest_none (l : list string) : latest l None = None -> l = [].
Proof.
  destruct l as [|a l]; [reflexivity|].
  destruct (@exists_last _ (a :: l)) as [l' [t E]]; [discriminate|].
  rewrite E, latest_app. discriminate.
Qed.

Lemma seen_nil (rs : list Response) : seen rs = [] -> Forall skipped rs.
Proof.
  induction rs as [|r rs IH]; intros H; [constructor|].
  simpl in H. destruct (examined r) as [[t fin]|] eqn:E.
  - destruct (fin && exit_phrase t); discriminate.
  - constructor; [now apply skipped_examined|now apply IH].
Qed.

(** X9: the loop fails on its unbound local exactly when every response
    is skipped: one response with a result and an alternative is enough
    for [return transcript] to find the local bound. *)
Theorem unbound_local_iff_all_skipped (rs : list Response) (w : world) :
  snd (listen_print_loop rs w) = Raised UnboundLocalError
  <-> Forall skipped rs.
Proof.
  split.
  - unfold listen_print_loop.
    pose proof (response_loop_last_seen unicode decode_utf8 backend rs 0 None w) as H.
    destruct (response_loop rs 0 None w) as [w' [n' [l|]|t'|e]]; simpl in *;
      try discriminate.
    + intros _. apply seen_nil. apply latest_none. now symmetry.
    + subst e. discriminate.
  - intros H. unfold listen_print_loop.
    now rewrite (response_loop_all_skipped unicode decode_utf8 backend rs H).
Qed.

(** X11: a final result with the stop phrase ends the loop for good: the
    responses that follow it change neither what is printed and posted
    nor what is returned. *)
Theorem responses_after_stop_phrase_ignored (pre post : list Response)
    (r : Response) (t : string) (w : world) :
  examined r = Some (t, true) ->
  exit_phrase t = true ->
  listen_print_loop (pre ++ r :: post) w = listen_print_loop (pre ++ [r]) w.
Proof.
  intros E X. unfold listen_print_loop.
  rewrite !(response_loop_app unicode decode_utf8 backend pre).
  destruct (response_loop pre 0 None w) as [w' [n' l|t'|e]]; try reflexivity.
  rewrite (response_loop_step unicode decode_utf8 backend r post n' l w' t true E).
  rewrite (response_loop_step unicode decode_utf8 backend r [] n' l w' t true E).
  cbv beta iota zeta.
  destruct (send_text_to_backend t _) as [w2 [e|]]; [reflexivity|].
  now rewrite X.
Qed.

Lemma posted_cons (t : string) (called : list string) :
  posted (t :: called) = posted [t] ++ posted called.
Proof. unfold posted. simpl. now destruct (String.eqb t ""). Qed.

Lemma posts_after_relay (t : string) (w w2 : world) :
  posts w2 = (if String.eqb t "" then posts w else posts w ++ [backend_request t]) ->
  posts w2 = posts w ++ posted [t].
Proof.
  intros ->. unfold posted. simpl.
  destruct (String.eqb t ""); simpl; now rewrite ?app_nil_r.
Qed.

Lemma response_loop_relays_prefix (rs : list Response) :
  forall n last w,
    exists called rest,
      dispatched_finals rs = called ++ rest
      /\ relayed (fst (response_loop rs n last w)) = relayed w ++ called
      /\ posts (fst (response_loop rs n last w)) = posts w ++ posted called.
Proof.
  induction rs as [|r rs IH]; intros n last w.
  - exists [], []. simpl. now rewrite !app_nil_r.
  - destruct (examined r) as [[t fin]|] eqn:E.
    + rewrite (response_loop_step unicode decode_utf8 backend r rs n last w t fin E).
      simpl. rewrite E. destruct fin.
      * match goal with |- context [send_text_to_backend t ?x] =>
          destruct (send_text_to_backend_effects decode_utf8 backend t x)
            as [P [R _]];
          destruct (send_text_to_backend t x) as [w2 [e|]]
        end; simpl in P, R; apply posts_after_relay in P.
        -- exists [t], (dispatched_finals rs). simpl. auto.
        -- destruct (exit_phrase t).
           ++ exists [t], (dispatched_finals rs). simpl. auto.
           ++ destruct (IH 0%Z (Some t) w2) as [called [rest [D [R' P']]]].
              exists (t :: called), rest. simpl.
              rewrite D, R', P', R, P, (posted_cons t called), <- !app_assoc.
              repeat split.
      * match goal with |- context [response_loop rs ?a ?b ?c] =>
          destruct (IH a b c) as [called [rest [D [R' P']]]]
        end.
        exists called, rest. rewrite R', P'. simpl. auto.
    + rewrite (response_loop_skips unicode decode_utf8 backend r rs n last w E).
      simpl. rewrite E. apply IH.
Qed.

(** X12: the relay is called with the transcripts of the final first
    results, in their order, from the first one on and without gaps, and
    with nothing else; one request is posted for each of these
    transcripts that is not empty, in the same order. *)
Theorem relay_calls_follow_finals (rs : list Response) (w : world) :
  exists called rest,
    dispatched_finals rs = called ++ rest
    /\ relayed (fst (listen_print_loop rs w)) = relayed w ++ called
    /\ posts (fst (listen_print_loop rs w)) = posts w ++ posted called.
Proof.
  destruct (response_loop_relays_prefix rs 0 None w) as [called [rest H]].
  exists called, rest. unfold listen_print_loop.
  destruct (response_loop rs 0 None w) as [w' [n' [l|]|t'|e]]; exact H.
Qed.

Lemma response_loop_relays_all (rs : list Response) :
  (forall t w, snd (send_text_to_backend t w) = None) ->
  forallb (fun t => negb (exit_phrase t)) (dispatched_finals rs) = true ->
  forall n last w,
    relayed (fst (response_loop rs n last w)) = relayed w ++ dispatched_finals rs
    /\ posts (fst (response_loop rs n last w))
       = posts w ++ posted (dispatched_finals rs).
Proof.
  intros Ok. induction rs as [|r rs IH]; intros X n last w.
  - simpl. now rewrite !app_nil_r.
  - destruct (examined r) as [[t fin]|] eqn:E.
    + rewrite (response_loop_step unicode decode_utf8 backend r rs n last w t fin E).
      simpl in *. rewrite E in *. destruct fin.
      * simpl in X. apply andb_true_iff in X. destruct X as [Xt X].
        apply negb_true_iff in Xt.
        match goal with |- context [send_text_to_backend t ?x] =>
          destruct (send_text_to_backend_effects decode_utf8 backend t x)
            as [P [R _]];
          pose proof (Ok t x) as O;
          destruct (send_text_to_backend t x) as [w2 o]
        end; simpl in P, R, O; apply posts_after_relay in P. subst o. rewrite Xt.
        destruct (IH X 0%Z (Some t) w2) as [R' P'].
        change ([t] ++ dispatched_finals rs) with (t :: dispatched_finals rs).
        rewrite R', P', R, P, (posted_cons t (dispatched_finals rs)), <- !app_assoc.
        split; reflexivity.
      * simpl in X.
        match goal with |- context [response_loop rs ?a ?b ?c] =>
          destruct (IH X a b c) as [R P]
        end.
        rewrite R, P. split; reflexivity.
    + rewrite (response_loop_skips unicode decode_utf8 backend r rs n last w E).
      simpl in *. rewrite E in *. now apply IH.
Qed.

(** X13: when every relay call returns and no final transcript has the
    stop phrase, every final first result is relayed: the calls are
    exactly their transcripts, in order. *)
Theorem every_final_relayed (rs : list Response) (w : world) :
  (forall t w', snd (send_text_to_backend t w') = None) ->
  forallb (fun t => negb (exit_phrase t)) (dispatched_finals rs) = true ->
  relayed (fst (listen_print_loop rs w)) = relayed w ++ dispatched_finals rs
  /\ posts (fst (listen_print_loop rs w)) = posts w ++ posted (dispatched_finals rs).
Proof.
  intros Ok X.
  pose proof (response_loop_relays_all rs Ok X 0%Z None w) as H.
  unfold listen_print_loop.
  destruct (response_loop rs 0 None w) as [w' [n' [l|]|t'|e]]; exact H.
Qed.

(** X14: [num_chars_printed] is kept at 0 or at the length of the
    last-seen transcript, so it is never negative; it is 0 when the loop
    starts and after each final result. *)
Theorem num_chars_printed_invariant (rs : list Response) :
  forall n last w w' n' last',
    (n = 0%Z \/ exists t, last = Some t /\ n = Text.len t) ->
    response_loop rs n last w = (w', Exhausted n' last') ->
    (0 <= n')%Z /\ (n' = 0%Z \/ exists t, last' = Some t /\ n' = Text.len t).
Proof.
  induction rs as [|r rs IH]; intros n last w w' n' last' Inv R.
  - simpl in R. inversion R; subst. split; [|exact Inv].
    destruct Inv as [->|[t [_ ->]]]; unfold Text.len; lia.
  - destruct (examined r) as [[t fin]|] eqn:E.
    + rewrite (response_loop_step unicode decode_utf8 backend r rs n last w t fin E) in R.
      cbv beta iota zeta in R. destruct fin.
      * destruct (send_text_to_backend t _) as [w2 [e|]]; [discriminate|].
        destruct (exit_phrase t); [discriminate|].
        revert R. apply IH. now left.
      * revert R. apply IH. right. now exists t.
    + rewrite (response_loop_skips unicode decode_utf8 backend r rs n last w E) in R.
      revert R. now apply IH.
Qed.

Lemma response_loop_mic (rs : list Response) :
  forall n last w,
    mic_opened (fst (response_loop rs n last w)) = mic_opened w
    /\ mic_closed (fst (response_loop rs n last w)) = mic_closed w.
Proof.
  induction rs as [|r rs IH]; intros n last w; [now split|].
  destruct (examined r) as [[t fin]|] eqn:E.
  - rewrite (response_loop_step unicode decode_utf8 backend r rs n last w t fin E).
    simpl. destruct fin.
    + match goal with |- context [send_text_to_backend t ?x] =>
        destruct (send_text_to_backend_effects decode_utf8 backend t x)
          as [_ [_ [O [C _]]]];
        destruct (send_text_to_backend t x) as [w2 [e|]]
      end; simpl in O, C; [now split|].
      destruct (exit_phrase t); simpl; [now split|].
      destruct (IH 0%Z (Some t) w2) as [O' C']. rewrite O', C'. now split.
    + match goal with |- context [response_loop rs ?a ?b ?c] =>
        destruct (IH a b c) as [O C]
      end.
      rewrite O, C. now split.
  - rewrite (response_loop_skips unicode decode_utf8 backend r rs n last w E). apply IH.
Qed.

Lemma listen_print_loop_mic (rs : list Response) (w : world) :
  mic_opened (fst (listen_print_loop rs w)) = mic_opened w
  /\ mic_closed (fst (listen_print_loop rs w)) = mic_closed w.
Proof.
  pose proof (response_loop_mic rs 0 None w) as H. unfold listen_print_loop.
  destruct (response_loop rs 0 None w) as [w' [n' [l|]|t'|e]]; exact H.
Qed.

(** X15: the driver releases the microphone as often as it opened it,
    also when the loop of a session raised: at any point where the script
    stops, every session that was opened has been closed. *)
Theorem main_closes_what_it_opens (script : list session) (w : world) :
  (mic_opened (fst (main script w)) + mic_closed w
   = mic_closed (fst (main script w)) + mic_opened w)%nat.
Proof.
  revert w. induction script as [|s script IH]; intros w; simpl; [lia|].
  destruct (device_error s); simpl; [lia|].
  destruct (listen_print_loop_mic (responses s) (enter_stream w)) as [O C].
  destruct (listen_print_loop (responses s) (enter_stream w)) as [w' [v|e]];
    simpl in *.
  - pose proof (IH (exit_stream w')) as H. simpl in H. lia.
  - lia.
Qed.

(** X16: a session in which the recognizer sends nothing the loop can
    use ends the process: the unbound local goes through [main] once the
    stream is closed, and no further session is opened. *)
Theorem silent_session_ends_process (s : session) (script : list session)
    (w : world) :
  device_error s = None ->
  Forall skipped (responses s) ->
  main (s :: script) w = (exit_stream (enter_stream w), Some UnboundLocalError).
Proof.
  intros D H. simpl. rewrite D. unfold listen_print_loop.
  now rewrite (response_loop_all_skipped unicode decode_utf8 backend (responses s) H).
Qed.

End DispatcherMore.

Lemma responses_after_stop_phrase_ignored_witness :
  listen_print_loop plain_database decode_ascii backend_up (responses exit_session) world0
  = listen_print_loop plain_database decode_ascii backend_up
      [{| results := [interim "please ex"] |};
       {| results := [final "please exit now"] |}] world0.
Proof.
  apply (responses_after_stop_phrase_ignored plain_database decode_ascii backend_up
           [{| results := [interim "please ex"] |}]
           [{| results := [final "never seen"] |}]
           {| results := [final "please exit now"] |} "please exit now" world0);
    reflexivity.
Defined.

Lemma every_final_relayed_witness :
  relayed (fst (listen_print_loop plain_database decode_ascii backend_down
                  (responses hello_session) world0))
  = relayed world0 ++ dispatched_finals (responses hello_session)
  /\ posts (fst (listen_print_loop plain_database decode_ascii backend_down
                   (responses hello_session) world0))
     = posts world0 ++ posted (dispatched_finals (responses hello_session)).
Proof.
  apply (every_final_relayed plain_database decode_ascii backend_down
           (responses hello_session) world0).
  - intros t w'. unfold send_text_to_backend, relay_try.
    destruct (String.eqb t ""); reflexivity.
  - reflexivity.
Defined.

Lemma num_chars_printed_invariant_witness :
  (0 <= 5)%Z
  /\ (5 = 0 \/ exists t, Some "hello"%string = Some t /\ 5 = Text.len t)%Z.
Proof.
  apply (num_chars_printed_invariant plain_database decode_ascii backend_up growing_interims
           0 None world0
           (fst (response_loop plain_database decode_ascii backend_up growing_interims 0 None world0))
           5 (Some "hello"%string)).
  - now left.
  - reflexivity.
Defined.

Lemma silent_session_ends_process_witness :
  main plain_database decode_ascii backend_up [silent_session; hello_session] world0
  = (exit_stream (enter_stream world0), Some UnboundLocalError).
Proof.
  apply (silent_session_ends_process plain_database decode_ascii backend_up silent_session
           [hello_session] world0).
  - reflexivity.
  - constructor; [now left|constructor].
Defined.
